(** * PrivateShare P2P: the transfer engine of the [App] component

    The React component that drives the PeerJS data connection: the status
    machine, the two packet handlers (receiver side in
    [handleIncomingConnection], sender side in [connectToPeer]), the
    chunked upload loop and the heartbeat timer.

    Conventions.
    - One event is handled at a time: its handler runs to its end (an
      async function to its next [await]), the component renders, and the
      effects of the render run before the next event.
    - React state and refs are the fields of one record [App]; every
      handler is a function [App -> App].
    - What the component does to the outside world is logged in the same
      record: [sent] holds the calls to [conn.send] in order, [progressLog]
      the calls to [setProgress], [timeouts] the pending [setTimeout]
      callbacks, [uploads] the suspended [startChunkedUpload] coroutines.
    - What the component reads from the outside world ([conn.open],
      [dataChannel.bufferedAmount], the answer to [window.confirm]) comes
      with the event that triggers the read.
    - Sizes and offsets are integers ([Z]); they are below 2^53, so the
      Numbers that hold them hold them exactly.  The progress arithmetic
      and [generateId] are computed on doubles, every operation rounded
      to nearest, ties to even. *)

From Stdlib Require Import ZArith Lia Sorted SpecFloat.
From stdpp Require Import base tactics option list strings.

Local Open Scope Z_scope.

(** ** types.ts *)

Inductive TransferState :=
| IDLE | CONNECTING | CONNECTED | WAITING_APPROVAL | TRANSFERRING
| COMPLETED | FAILED.

Record FileMetadata := mkMeta {
  meta_name : string;
  meta_size : Z;
  meta_type : string;
}.

(** A [File] and a [Blob] are their bytes and their media type; [size] is
    the number of bytes.  A [QueuedFile] is taken for its [file]; the
    preview URL plays no part in the transfer. *)
Record Blob := mkBlob {
  blob_bytes : list Byte.byte;
  blob_type : string;
}.

Record File := mkFile {
  file_name : string;
  file_type : string;
  file_bytes : list Byte.byte;
}.

Definition file_size (f : File) : Z := Z.of_nat (length (file_bytes f)).
Definition blob_size (b : Blob) : Z := Z.of_nat (length (blob_bytes b)).
Definition byteLength (buffer : list Byte.byte) : Z := Z.of_nat (length buffer).

(** [DataPacket]: the [type] tag with its payload.  ['file-start'] and
    ['heartbeat'] are sent by the component although the declared union
    does not list them. *)
Inductive DataPacket :=
| handshake
| approve
| reject
| file_meta (payload : FileMetadata)
| file_start
| file_chunk (payload : list Byte.byte)
| file_end
| file_whole
| heartbeat.

(** ** JavaScript numbers *)

(** A Number is an IEEE 754 binary64 value.  Every finite one is a whole
    multiple of 2^-1074, the smallest positive double, and is held here
    as that multiple: [Finite n] is n * 2^-1074, so 1 is [Finite ONE].
    The doubles are the multiples of 2^e among the values in
    [2^(52+e), 2^(53+e)], for e >= 0, together with every multiple below
    2^53 (the first binade and the subnormal numbers); from [OVERFLOW],
    which is 2^1024, on there are none.  The sign of zero is not tracked:
    the component never divides by a zero it has computed. *)
Inductive Double :=
| Finite (n : Z)
| PlusInfinity
| MinusInfinity
| NotANumber.

Definition ONE : Z := 2 ^ 1074.
Definition OVERFLOW : Z := 2 ^ 2098.

(** The integer nearest to n / d, the even one in a tie
    ([0 <= n], [0 < d]). *)
Definition roundNearestEven (n d : Z) : Z :=
  let q := n / d in
  let r := n mod d in
  if 2 * r <? d then q
  else if d <? 2 * r then q + 1
  else if Z.even q then q else q + 1.

(** The doubles around a value whose integer part is [q] are 2^e apart. *)
Definition spacingExp (q : Z) : Z := Z.max 0 (Z.log2 q - 52).

(** The double nearest to n / d, before the test for overflow
    ([0 <= n], [0 < d]). *)
Definition roundPos (n d : Z) : Z :=
  let e := spacingExp (n / d) in
  roundNearestEven n (d * 2 ^ e) * 2 ^ e.

(** Rounding to nearest, ties to even, as every arithmetic operation
    does: the double nearest to n / d ([d <> 0]). *)
Definition nearestDouble (n d : Z) : Double :=
  let s := Z.sgn n * Z.sgn d in
  let m := roundPos (Z.abs n) (Z.abs d) in
  if OVERFLOW <=? m then (if s <? 0 then MinusInfinity else PlusInfinity)
  else Finite (s * m).

(** The Number that holds the integer [z].  Byte counts and the literals
    of the program are below 2^53, where every integer is a double. *)
Definition ofInt (z : Z) : Double := Finite (z * ONE).

(** [x / y] *)
Definition fdiv (x y : Double) : Double :=
  match x, y with
  | NotANumber, _ | _, NotANumber => NotANumber
  | Finite n, Finite m =>
      if m =? 0 then
        if n =? 0 then NotANumber
        else if n <? 0 then MinusInfinity else PlusInfinity
      else nearestDouble (n * ONE) m
  | Finite _, _ => Finite 0
  | PlusInfinity, Finite m => if m <? 0 then MinusInfinity else PlusInfinity
  | MinusInfinity, Finite m => if m <? 0 then PlusInfinity else MinusInfinity
  | _, _ => NotANumber
  end.

(** [x * y] *)
Definition fmul (x y : Double) : Double :=
  match x, y with
  | NotANumber, _ | _, NotANumber => NotANumber
  | Finite n, Finite m => nearestDouble (n * m) ONE
  | Finite n, PlusInfinity | PlusInfinity, Finite n =>
      if n =? 0 then NotANumber
      else if n <? 0 then MinusInfinity else PlusInfinity
  | Finite n, MinusInfinity | MinusInfinity, Finite n =>
      if n =? 0 then NotANumber
      else if n <? 0 then PlusInfinity else MinusInfinity
  | PlusInfinity, PlusInfinity | MinusInfinity, MinusInfinity => PlusInfinity
  | _, _ => MinusInfinity
  end.

(** [x + y] *)
Definition fadd (x y : Double) : Double :=
  match x, y with
  | NotANumber, _ | _, NotANumber => NotANumber
  | Finite n, Finite m => nearestDouble (n + m) 1
  | PlusInfinity, MinusInfinity | MinusInfinity, PlusInfinity => NotANumber
  | PlusInfinity, _ | _, PlusInfinity => PlusInfinity
  | _, _ => MinusInfinity
  end.

(** The integral results of [Math.round] and [Math.floor], which are
    what the component reports as progress. *)
Inductive JsNum :=
| Num (z : Z)
| Infinity
| NegInfinity
| NaN.

(** [Math.round(x)]: the integer nearest to [x], the greater one in a
    tie. *)
Definition mathRound (x : Double) : JsNum :=
  match x with
  | Finite n => Num ((2 * n + ONE) / (2 * ONE))
  | PlusInfinity => Infinity
  | MinusInfinity => NegInfinity
  | NotANumber => NaN
  end.

(** [Math.floor(x)] *)
Definition mathFloor (x : Double) : JsNum :=
  match x with
  | Finite n => Num (n / ONE)
  | PlusInfinity => Infinity
  | MinusInfinity => NegInfinity
  | NotANumber => NaN
  end.

(** [Math.round((a / b) * 100)] for the integers [a] and [b]: a division
    and a multiplication of doubles, each rounded, and then
    [Math.round]. *)
Definition roundPercent (a b : Z) : JsNum :=
  mathRound (fmul (fdiv (ofInt a) (ofInt b)) (ofInt 100)).

(** [Math.min(100, x)] *)
Definition min100 (x : JsNum) : JsNum :=
  match x with
  | Num z => Num (Z.min 100 z)
  | Infinity => Num 100
  | NegInfinity => NegInfinity
  | NaN => NaN
  end.

(** [x] is a double: it is on the grid described above. *)
Definition isDouble (x : Double) : Prop :=
  match x with
  | Finite n =>
      Z.abs n < OVERFLOW /\ n mod 2 ^ spacingExp (Z.abs n) = 0
  | _ => True
  end.

(** [0 <= x < 1] *)
Definition unitInterval (x : Double) : Prop :=
  match x with
  | Finite n => 0 <= n < ONE
  | _ => False
  end.

(** The order of the doubles from zero up, and of the integral results. *)
Definition dBelow (x y : Double) : Prop :=
  match x, y with
  | Finite n, Finite m => 0 <= n <= m
  | Finite n, PlusInfinity => 0 <= n
  | PlusInfinity, PlusInfinity => True
  | _, _ => False
  end.

Definition jsBelow (p q : JsNum) : Prop :=
  match p, q with
  | Num a, Num b => 0 <= a <= b
  | Num a, Infinity => 0 <= a
  | Infinity, Infinity => True
  | _, _ => False
  end.

(** The same operations as the Standard Library specifies them for
    binary64 ([SpecFloat], precision 53, [emax] 1024), for comparison. *)
Definition unitsOf (f : spec_float) : Double :=
  match f with
  | S754_zero _ => Finite 0
  | S754_infinity false => PlusInfinity
  | S754_infinity true => MinusInfinity
  | S754_nan => NotANumber
  | S754_finite s m e =>
      let v := Z.pos m * 2 ^ (e + 1074) in
      Finite (if s then - v else v)
  end.

Definition binary64 (m e : Z) : spec_float := binary_normalize 53 1024 m e false.

Definition sameDouble (x y : Double) : bool :=
  match x, y with
  | Finite n, Finite m => n =? m
  | PlusInfinity, PlusInfinity | MinusInfinity, MinusInfinity
  | NotANumber, NotANumber => true
  | _, _ => false
  end.

(** [(a / b) * 100] *)
Definition percentBySpecFloat (a b : Z) : Double :=
  unitsOf (SFmul 53 1024 (SFdiv 53 1024 (binary64 a 0) (binary64 b 0))
             (binary64 100 0)).

(** [100000 + r * 900000] for [r] = m * 2^-53 *)
Definition idBySpecFloat (m : Z) : Double :=
  unitsOf (SFadd 53 1024 (binary64 100000 0)
             (SFmul 53 1024 (binary64 m (-53)) (binary64 900000 0))).

(** [Blob.prototype.slice(start, end)]: both ends are clamped to the blob,
    negative ones counting from its end. *)
Definition clampIndex (size i : Z) : Z :=
  if i <? 0 then Z.max (size + i) 0 else Z.min i size.

Definition slice (bytes : list Byte.byte) (start end_ : Z) : list Byte.byte :=
  let size := Z.of_nat (length bytes) in
  let relativeStart := clampIndex size start in
  let relativeEnd := clampIndex size end_ in
  let span := Z.max (relativeEnd - relativeStart) 0 in
  take (Z.to_nat span) (drop (Z.to_nat relativeStart) bytes).

(** [new Blob(parts, { type })] *)
Definition newBlob (parts : list Blob) (type : string) : Blob :=
  mkBlob (concat (map blob_bytes parts)) type.

(** ** Constants of App.tsx *)

Definition CHUNK_SIZE : Z := 32 * 1024.
Definition MAX_BUFFER_AMOUNT : Z := 1024 * 1024.

(** ** The component's state *)

Inductive View := home | app.
Inductive Tab := send_tab | receive_tab.

(** A data connection is either one this component dialled with
    [peer.connect] (numbered in dialling order) or one a remote peer opened
    towards it. *)
Inductive Conn :=
| outgoing (n : nat)
| incoming (n : nat).

(** The handlers that [connectToPeer] attaches to a connection are closures
    of the render in which the button was clicked: they see that render's
    [status] and [selectedFile], not the current ones. *)
Record Closure := mkClosure {
  cl_status : TransferState;
  cl_selectedFile : option File;
}.

(** The [setInterval] timer of the heartbeat: the connection its callback
    holds and its period in milliseconds. *)
Record Interval := mkInterval {
  iv_conn : Conn;
  iv_period : Z;
}.

(** Pending [setTimeout] callbacks. *)
Inductive Timeout :=
| ConnectTimeout     (* set by connectToPeer *)
| RejectRevert.      (* set by the sender's reject handler *)

(** The delay each one was scheduled with, in milliseconds. *)
Definition delay (t : Timeout) : Z :=
  match t with
  | ConnectTimeout => 10000
  | RejectRevert => 2000
  end.

(** Where a [startChunkedUpload] coroutine is suspended, or how it ended. *)
Inductive UploadPc :=
| AwaitPause                                   (* the 200 ms pause *)
| AwaitDrain (offset : Z)                      (* the 50 ms backpressure wait *)
| AwaitBuffer (offset : Z) (chunk : list Byte.byte) (* chunk.arrayBuffer() *)
| Finished                                     (* file-end sent, COMPLETED *)
| Lost                                         (* connection lost, FAILED *)
| Threw.                                       (* connRef.current was null *)

Record Upload := mkUpload {
  up_file : File;
  up_pc : UploadPc;
}.

Record App := mkApp {
  (* useState *)
  view : View;
  targetId : string;
  status : TransferState;
  statusMessage : string;
  activeTab : Tab;
  selectedFile : option File;
  incomingMeta : option FileMetadata;
  receivedFileUrl : option Blob;          (* the blob behind the object URL *)
  progress : JsNum;
  (* useRef *)
  peerRef : bool;                         (* a Peer has been created *)
  connRef : option Conn;
  incomingMetaRef : option FileMetadata;
  receivedChunksRef : list Blob;
  receivedSizeRef : Z;
  heartbeatRef : option Interval;         (* the live interval, if any *)
  (* the world around the component *)
  sent : list (Conn * DataPacket);        (* calls to conn.send, oldest first *)
  progressLog : list JsNum;               (* calls to setProgress, oldest first *)
  timeouts : list Timeout;                (* pending setTimeout callbacks *)
  uploads : list Upload;                  (* startChunkedUpload coroutines *)
  dialed : list Closure;                  (* handlers of outgoing n *)
  accepted : list nat;                    (* incoming n with handlers attached *)
}.

(** Field updates. *)
Definition withView (v : View) (s : App) : App :=
  mkApp v (targetId s) (status s) (statusMessage s) (activeTab s)
    (selectedFile s) (incomingMeta s) (receivedFileUrl s) (progress s)
    (peerRef s) (connRef s) (incomingMetaRef s) (receivedChunksRef s)
    (receivedSizeRef s) (heartbeatRef s) (sent s) (progressLog s) (timeouts s)
    (uploads s) (dialed s) (accepted s).
Definition withTargetId (v : string) (s : App) : App :=
  mkApp (view s) v (status s) (statusMessage s) (activeTab s) (selectedFile s)
    (incomingMeta s) (receivedFileUrl s) (progress s) (peerRef s) (connRef s)
    (incomingMetaRef s) (receivedChunksRef s) (receivedSizeRef s)
    (heartbeatRef s) (sent s) (progressLog s) (timeouts s) (uploads s)
    (dialed s) (accepted s).
Definition withStatus (v : TransferState) (s : App) : App :=
  mkApp (view s) (targetId s) v (statusMessage s) (activeTab s)
    (selectedFile s) (incomingMeta s) (receivedFileUrl s) (progress s)
    (peerRef s) (connRef s) (incomingMetaRef s) (receivedChunksRef s)
    (receivedSizeRef s) (heartbeatRef s) (sent s) (progressLog s) (timeouts s)
    (uploads s) (dialed s) (accepted s).
Definition withStatusMessage (v : string) (s : App) : App :=
  mkApp (view s) (targetId s) (status s) v (activeTab s) (selectedFile s)
    (incomingMeta s) (receivedFileUrl s) (progress s) (peerRef s) (connRef s)
    (incomingMetaRef s) (receivedChunksRef s) (receivedSizeRef s)
    (heartbeatRef s) (sent s) (progressLog s) (timeouts s) (uploads s)
    (dialed s) (accepted s).
Definition withActiveTab (v : Tab) (s : App) : App :=
  mkApp (view s) (targetId s) (status s) (statusMessage s) v (selectedFile s)
    (incomingMeta s) (receivedFileUrl s) (progress s) (peerRef s) (connRef s)
    (incomingMetaRef s) (receivedChunksRef s) (receivedSizeRef s)
    (heartbeatRef s) (sent s) (progressLog s) (timeouts s) (uploads s)
    (dialed s) (accepted s).
Definition withSelectedFile (v : option File) (s : App) : App :=
  mkApp (view s) (targetId s) (status s) (statusMessage s) (activeTab s) v
    (incomingMeta s) (receivedFileUrl s) (progress s) (peerRef s) (connRef s)
    (incomingMetaRef s) (receivedChunksRef s) (receivedSizeRef s)
    (heartbeatRef s) (sent s) (progressLog s) (timeouts s) (uploads s)
    (dialed s) (accepted s).
Definition withIncomingMeta (v : option FileMetadata) (s : App) : App :=
  mkApp (view s) (targetId s) (status s) (statusMessage s) (activeTab s)
    (selectedFile s) v (receivedFileUrl s) (progress s) (peerRef s)
    (connRef s) (incomingMetaRef s) (receivedChunksRef s) (receivedSizeRef s)
    (heartbeatRef s) (sent s) (progressLog s) (timeouts s) (uploads s)
    (dialed s) (accepted s).
Definition withReceivedFileUrl (v : option Blob) (s : App) : App :=
  mkApp (view s) (targetId s) (status s) (statusMessage s) (activeTab s)
    (selectedFile s) (incomingMeta s) v (progress s) (peerRef s) (connRef s)
    (incomingMetaRef s) (receivedChunksRef s) (receivedSizeRef s)
    (heartbeatRef s) (sent s) (progressLog s) (timeouts s) (uploads s)
    (dialed s) (accepted s).
Definition withProgress (v : JsNum) (s : App) : App :=
  mkApp (view s) (targetId s) (status s) (statusMessage s) (activeTab s)
    (selectedFile s) (incomingMeta s) (receivedFileUrl s) v (peerRef s)
    (connRef s) (incomingMetaRef s) (receivedChunksRef s) (receivedSizeRef s)
    (heartbeatRef s) (sent s) (progressLog s) (timeouts s) (uploads s)
    (dialed s) (accepted s).
Definition withPeerRef (v : bool) (s : App) : App :=
  mkApp (view s) (targetId s) (status s) (statusMessage s) (activeTab s)
    (selectedFile s) (incomingMeta s) (receivedFileUrl s) (progress s) v
    (connRef s) (incomingMetaRef s) (receivedChunksRef s) (receivedSizeRef s)
    (heartbeatRef s) (sent s) (progressLog s) (timeouts s) (uploads s)
    (dialed s) (accepted s).
Definition withConnRef (v : option Conn) (s : App) : App :=
  mkApp (view s) (targetId s) (status s) (statusMessage s) (activeTab s)
    (selectedFile s) (incomingMeta s) (receivedFileUrl s) (progress s)
    (peerRef s) v (incomingMetaRef s) (receivedChunksRef s)
    (receivedSizeRef s) (heartbeatRef s) (sent s) (progressLog s) (timeouts s)
    (uploads s) (dialed s) (accepted s).
Definition withIncomingMetaRef (v : option FileMetadata) (s : App) : App :=
  mkApp (view s) (targetId s) (status s) (statusMessage s) (activeTab s)
    (selectedFile s) (incomingMeta s) (receivedFileUrl s) (progress s)
    (peerRef s) (connRef s) v (receivedChunksRef s) (receivedSizeRef s)
    (heartbeatRef s) (sent s) (progressLog s) (timeouts s) (uploads s)
    (dialed s) (accepted s).
Definition withReceivedChunksRef (v : list Blob) (s : App) : App :=
  mkApp (view s) (targetId s) (status s) (statusMessage s) (activeTab s)
    (selectedFile s) (incomingMeta s) (receivedFileUrl s) (progress s)
    (peerRef s) (connRef s) (incomingMetaRef s) v (receivedSizeRef s)
    (heartbeatRef s) (sent s) (progressLog s) (timeouts s) (uploads s)
    (dialed s) (accepted s).
Definition withReceivedSizeRef (v : Z) (s : App) : App :=
  mkApp (view s) (targetId s) (status s) (statusMessage s) (activeTab s)
    (selectedFile s) (incomingMeta s) (receivedFileUrl s) (progress s)
    (peerRef s) (connRef s) (incomingMetaRef s) (receivedChunksRef s) v
    (heartbeatRef s) (sent s) (progressLog s) (timeouts s) (uploads s)
    (dialed s) (accepted s).
Definition withHeartbeatRef (v : option Interval) (s : App) : App :=
  mkApp (view s) (targetId s) (status s) (statusMessage s) (activeTab s)
    (selectedFile s) (incomingMeta s) (receivedFileUrl s) (progress s)
    (peerRef s) (connRef s) (incomingMetaRef s) (receivedChunksRef s)
    (receivedSizeRef s) v (sent s) (progressLog s) (timeouts s) (uploads s)
    (dialed s) (accepted s).
Definition withSent (v : list (Conn * DataPacket)) (s : App) : App :=
  mkApp (view s) (targetId s) (status s) (statusMessage s) (activeTab s)
    (selectedFile s) (incomingMeta s) (receivedFileUrl s) (progress s)
    (peerRef s) (connRef s) (incomingMetaRef s) (receivedChunksRef s)
    (receivedSizeRef s) (heartbeatRef s) v (progressLog s) (timeouts s)
    (uploads s) (dialed s) (accepted s).
Definition withProgressLog (v : list JsNum) (s : App) : App :=
  mkApp (view s) (targetId s) (status s) (statusMessage s) (activeTab s)
    (selectedFile s) (incomingMeta s) (receivedFileUrl s) (progress s)
    (peerRef s) (connRef s) (incomingMetaRef s) (receivedChunksRef s)
    (receivedSizeRef s) (heartbeatRef s) (sent s) v (timeouts s) (uploads s)
    (dialed s) (accepted s).
Definition withTimeouts (v : list Timeout) (s : App) : App :=
  mkApp (view s) (targetId s) (status s) (statusMessage s) (activeTab s)
    (selectedFile s) (incomingMeta s) (receivedFileUrl s) (progress s)
    (peerRef s) (connRef s) (incomingMetaRef s) (receivedChunksRef s)
    (receivedSizeRef s) (heartbeatRef s) (sent s) (progressLog s) v
    (uploads s) (dialed s) (accepted s).
Definition withUploads (v : list Upload) (s : App) : App :=
  mkApp (view s) (targetId s) (status s) (statusMessage s) (activeTab s)
    (selectedFile s) (incomingMeta s) (receivedFileUrl s) (progress s)
    (peerRef s) (connRef s) (incomingMetaRef s) (receivedChunksRef s)
    (receivedSizeRef s) (heartbeatRef s) (sent s) (progressLog s) (timeouts s)
    v (dialed s) (accepted s).
Definition withDialed (v : list Closure) (s : App) : App :=
  mkApp (view s) (targetId s) (status s) (statusMessage s) (activeTab s)
    (selectedFile s) (incomingMeta s) (receivedFileUrl s) (progress s)
    (peerRef s) (connRef s) (incomingMetaRef s) (receivedChunksRef s)
    (receivedSizeRef s) (heartbeatRef s) (sent s) (progressLog s) (timeouts s)
    (uploads s) v (accepted s).
Definition withAccepted (v : list nat) (s : App) : App :=
  mkApp (view s) (targetId s) (status s) (statusMessage s) (activeTab s)
    (selectedFile s) (incomingMeta s) (receivedFileUrl s) (progress s)
    (peerRef s) (connRef s) (incomingMetaRef s) (receivedChunksRef s)
    (receivedSizeRef s) (heartbeatRef s) (sent s) (progressLog s) (timeouts s)
    (uploads s) (dialed s) v.

Definition initialApp : App :=
  mkApp home "" IDLE "Initializing..." send_tab None None None (Num 0)
    false None None [] 0 None
    [] [] [] [] [] [].

(** [setProgress] and [conn.send], with their logs. *)
Definition setProgress (p : JsNum) (s : App) : App :=
  withProgressLog (progressLog s ++ [p]) (withProgress p s).

Definition conn_send (conn : Conn) (packet : DataPacket) (s : App) : App :=
  withSent (sent s ++ [(conn, packet)]) s.

(** The effect that mirrors [incomingMeta] into [incomingMetaRef] after a
    render. *)
Definition syncIncomingMetaRef (s : App) : App :=
  withIncomingMetaRef (incomingMeta s) s.

(** ** Heartbeat *)

Definition startHeartbeat (conn : Conn) (s : App) : App :=
  withHeartbeatRef (Some (mkInterval conn 2000)) s.

Definition stopHeartbeat (s : App) : App :=
  withHeartbeatRef None s.

(** One firing of the interval callback; [open] is [conn.open] at that
    moment. *)
Definition heartbeatFires (open : bool) (s : App) : App :=
  match heartbeatRef s with
  | Some interval =>
      if open then conn_send (iv_conn interval) heartbeat s else s
  | None => s
  end.

(** ** Receiver: handleIncomingConnection *)

Definition handleIncomingConnection (n : nat) (s : App) : App :=
  let conn := incoming n in
  let s := withConnRef (Some conn) s in
  let s := withStatus CONNECTED s in
  let s := withStatusMessage "Connected to sender" s in
  let s := withActiveTab receive_tab s in
  let s := startHeartbeat conn s in
  let s := withReceivedChunksRef [] s in
  let s := withReceivedSizeRef 0 s in
  withAccepted (n :: accepted s) s.

Definition receiverOnData (packet : DataPacket) (s : App) : App :=
  match packet with
  | file_meta payload =>
      withStatus WAITING_APPROVAL (withIncomingMeta (Some payload) s)
  | file_start =>
      let s := withStatus TRANSFERRING s in
      let s := withStatusMessage "Receiving file..." s in
      let s := withReceivedChunksRef [] s in
      let s := withReceivedSizeRef 0 s in
      setProgress (Num 0) s
  | file_chunk chunk =>
      let s := withReceivedChunksRef
                 (receivedChunksRef s ++ [mkBlob chunk ""]) s in
      let s := withReceivedSizeRef (receivedSizeRef s + byteLength chunk) s in
      match incomingMetaRef s with
      | Some meta =>
          let percent := roundPercent (receivedSizeRef s) (meta_size meta) in
          setProgress percent s
      | None => s
      end
  | file_end =>
      match incomingMetaRef s with
      | Some meta =>
          let blob := newBlob (receivedChunksRef s) (meta_type meta) in
          let s := withReceivedFileUrl (Some blob) s in
          let s := withStatus COMPLETED s in
          let s := withStatusMessage "File received successfully!" s in
          setProgress (Num 100) s
      | None => s
      end
  | reject =>
      let s := withStatus IDLE s in
      let s := withStatusMessage "Transfer cancelled." s in
      withIncomingMeta None s
  | _ => s
  end.

Definition receiverOnClose (s : App) : App :=
  let s := stopHeartbeat s in
  let s := withStatus IDLE s in
  let s := withStatusMessage "Sender disconnected." s in
  withConnRef None s.

Definition receiverOnError (s : App) : App :=
  withStatusMessage "Connection error occurred." (withStatus FAILED s).

(** ** Sender: the chunked upload *)

(** What the loop reads from the connection at the head of an iteration. *)
Record ChanObs := mkObs {
  obs_open : bool;                  (* connRef.current.open *)
  obs_bufferedAmount : option Z;    (* dataChannel?.bufferedAmount *)
}.

Definition backpressured (o : ChanObs) : bool :=
  match obs_bufferedAmount o with
  | Some amount => MAX_BUFFER_AMOUNT <? amount
  | None => false
  end.

(** The synchronous part of [startChunkedUpload]: up to the 200 ms pause.
    [selected] is the [selectedFile] of the render the function belongs
    to. *)
Definition startChunkedUpload (selected : option File) (s : App) : App :=
  match connRef s, selected with
  | Some conn, Some file =>
      let s := withStatus TRANSFERRING s in
      let s := withStatusMessage "Starting transfer..." s in
      let s := conn_send conn file_start s in
      withUploads (uploads s ++ [mkUpload file AwaitPause]) s
  | _, _ => s
  end.

(** From the loop test to the next [await] or to the end of the function. *)
Definition uploadLoop (file : File) (offset : Z) (o : ChanObs) (s : App)
  : App * UploadPc :=
  match connRef s with
  | None => (s, Threw)
  | Some conn =>
      if offset <? file_size file then
        if negb (obs_open o) then
          (withStatusMessage "Connection lost during transfer"
             (withStatus FAILED s), Lost)
        else if backpressured o then (s, AwaitDrain offset)
        else
          (s, AwaitBuffer offset
                (slice (file_bytes file) offset (offset + CHUNK_SIZE)))
      else
        let s := conn_send conn file_end s in
        let s := withStatus COMPLETED s in
        (withStatusMessage "Sent Successfully!" s, Finished)
  end.

(** The coroutine resumes from an [await] and runs to the next one. *)
Definition resumeUpload (u : Upload) (o : ChanObs) (s : App)
  : App * UploadPc :=
  match up_pc u with
  | AwaitPause =>
      uploadLoop (up_file u) 0 o (withStatusMessage "Sending file..." s)
  | AwaitDrain offset => uploadLoop (up_file u) offset o s
  | AwaitBuffer offset buffer =>
      match connRef s with
      | None => (s, Threw)
      | Some conn =>
          let s := conn_send conn (file_chunk buffer) s in
          let offset := offset + CHUNK_SIZE in
          let percent :=
            min100 (roundPercent offset (file_size (up_file u))) in
          uploadLoop (up_file u) offset o (setProgress percent s)
      end
  | pc => (s, pc)
  end.

Definition uploadResumes (i : nat) (o : ChanObs) (s : App) : App :=
  match uploads s !! i with
  | Some u =>
      let '(s', pc) := resumeUpload u o s in
      withUploads (<[i := mkUpload (up_file u) pc]> (uploads s')) s'
  | None => s
  end.

(** ** Sender: connectToPeer and the handlers it attaches *)

Definition connectToPeer (s : App) : App :=
  if (String.eqb (targetId s) "" || negb (peerRef s))%bool then s
  else
    let closure := mkClosure (status s) (selectedFile s) in
    let s := withStatus CONNECTING s in
    let s := withStatusMessage "Connecting..." s in
    let s := withDialed (dialed s ++ [closure]) s in
    withTimeouts (timeouts s ++ [ConnectTimeout]) s.

Definition senderOnOpen (conn : Conn) (s : App) : App :=
  let s := withConnRef (Some conn) s in
  let s := withStatus CONNECTED s in
  let s := withStatusMessage "Connected! Select a file." s in
  startHeartbeat conn s.

(** The [startChunkedUpload] the handler calls is the one of the render
    that dialled: it sees the file selected then. *)
Definition senderOnData (cl : Closure) (packet : DataPacket) (s : App) : App :=
  match packet with
  | approve => startChunkedUpload (cl_selectedFile cl) s
  | reject =>
      let s := withStatus FAILED s in
      let s := withStatusMessage "Receiver rejected." s in
      withTimeouts (timeouts s ++ [RejectRevert]) s
  | _ => s
  end.

Definition senderOnError (s : App) : App :=
  withStatusMessage "Connection failed. Check ID." (withStatus FAILED s).

Definition senderOnClose (cl : Closure) (s : App) : App :=
  let s := stopHeartbeat s in
  match cl_status cl with
  | COMPLETED => s
  | _ => withStatusMessage "Connection closed." (withStatus IDLE s)
  end.

(** A [setTimeout] callback runs; [open] is [connRef.current.open] then. *)
Definition timeoutFires (t : Timeout) (open : bool) (s : App) : App :=
  match t with
  | ConnectTimeout =>
      match connRef s with
      | Some _ =>
          if negb open then
            withStatusMessage "Connection timed out. Check ID."
              (withStatus FAILED s)
          else s
      | None => s               (* null?.open === false is false *)
      end
  | RejectRevert => withStatus CONNECTED s
  end.

(** ** Caller intents *)

Definition processFile (file : File) (s : App) : App :=
  withSelectedFile (Some file) s.

Definition requestSend (s : App) : App :=
  match connRef s, selectedFile s with
  | Some conn, Some file =>
      let meta := mkMeta (file_name file) (file_size file) (file_type file) in
      let s := conn_send conn (file_meta meta) s in
      let s := withStatus WAITING_APPROVAL s in
      withStatusMessage "Waiting for acceptance..." s
  | _, _ => s
  end.

Definition acceptTransfer (open : bool) (s : App) : App :=
  match connRef s with
  | None => s
  | Some conn =>
      if negb open then s       (* alert("Connection lost. ...") *)
      else
        let s := conn_send conn approve s in
        let s := withStatus TRANSFERRING s in
        withStatusMessage "Connecting to transfer..." s
  end.

Definition rejectTransfer (s : App) : App :=
  match connRef s with
  | None => s
  | Some conn =>
      let s := conn_send conn reject s in
      let s := withIncomingMeta None s in
      let s := withStatus IDLE s in
      withStatusMessage "Request declined." s
  end.

(** [confirmed] is the answer to [window.confirm]. *)
Definition reset (confirmed : bool) (s : App) : App :=
  if confirmed then
    let s := withStatus IDLE s in
    let s := withIncomingMeta None s in
    let s := withReceivedFileUrl None s in
    let s := withSelectedFile None s in
    let s := setProgress (Num 0) s in
    withStatusMessage "Online. Connect via Same Wi-Fi." s
  else s.

(** ** The Peer object *)

Inductive PeerErrorType := unavailable_id | peer_unavailable | other_error.

(** The effect of [view]: entering the app creates the Peer, leaving it
    runs the cleanup. *)
Definition enterApp (s : App) : App :=
  match view s with
  | home => withPeerRef true (withView app s)      (* initPeer *)
  | app => s
  end.

Definition goHome (s : App) : App :=
  match view s with
  | app => withView home (stopHeartbeat s)         (* cleanup; peer.destroy() *)
  | home => s
  end.

Definition peerOnOpen (s : App) : App :=
  withStatusMessage "Online. Connect via Same Wi-Fi." (withStatus IDLE s).

Definition peerOnError (t : PeerErrorType) (s : App) : App :=
  match t with
  | unavailable_id => s                            (* initPeer again *)
  | peer_unavailable =>
      withStatus FAILED (withStatusMessage "Peer not found. Check ID." s)
  | other_error => withStatusMessage "Network issue. Retrying..." s
  end.

(** ** What renderApp offers *)

(** [hay.includes(needle)] *)
Fixpoint includes (hay needle : string) : bool :=
  (String.prefix needle hay ||
   match hay with
   | EmptyString => false
   | String _ rest => includes rest needle
   end)%bool.

Definition in_app (s : App) : bool :=
  match view s with
  | app => true
  | home => false
  end.

Definition status_in (s : App) (l : list TransferState) : bool :=
  existsb (fun t => match status s, t with
                    | IDLE, IDLE | CONNECTING, CONNECTING
                    | CONNECTED, CONNECTED
                    | WAITING_APPROVAL, WAITING_APPROVAL
                    | TRANSFERRING, TRANSFERRING
                    | COMPLETED, COMPLETED | FAILED, FAILED => true
                    | _, _ => false
                    end) l.

Definition on_tab (s : App) (t : Tab) : bool :=
  (in_app s &&
   match activeTab s, t with
   | send_tab, send_tab | receive_tab, receive_tab => true
   | _, _ => false
   end)%bool.

Definition connectPanel (s : App) : bool :=
  (on_tab s send_tab && status_in s [IDLE; FAILED])%bool.

Definition connectButton (s : App) : bool :=
  (connectPanel s && (String.length (targetId s) =? 6)%nat)%bool.

Definition filePanel (s : App) : bool :=
  (on_tab s send_tab &&
   status_in s [CONNECTED; COMPLETED; WAITING_APPROVAL])%bool.

Definition forceStartButton (s : App) : bool :=
  (filePanel s && bool_decide (is_Some (selectedFile s)) &&
   status_in s [WAITING_APPROVAL])%bool.

Definition sendButton (s : App) : bool :=
  (filePanel s && bool_decide (is_Some (selectedFile s)) &&
   negb (status_in s [WAITING_APPROVAL]))%bool.

Definition clearFileButton (s : App) : bool :=
  (filePanel s && bool_decide (is_Some (selectedFile s)))%bool.

Definition requestModal (s : App) : bool :=
  (on_tab s receive_tab && bool_decide (is_Some (incomingMeta s)) &&
   status_in s [WAITING_APPROVAL])%bool.

Definition retryButton (s : App) : bool :=
  (in_app s && status_in s [TRANSFERRING] &&
   includes (statusMessage s) "Connecting to transfer")%bool.

Definition resetButton (s : App) : bool :=
  (in_app s && status_in s [COMPLETED; FAILED])%bool.

(** ** Events *)

Inductive Event :=
(* the page *)
| EnterApp
| GoHome
| ClickTab (t : Tab)
| TypeTargetId (value : string)
| ClickConnect
| SelectFile (file : File)
| ClearFile
| ClickSend
| ClickForceStart
| ClickAccept (open : bool)
| ClickRetry (open : bool)
| ClickDecline
| ClickReset (confirmed : bool)
(* the Peer and its connections *)
| PeerOpen
| PeerError (t : PeerErrorType)
| PeerConnection (n : nat)
| ConnOpen (conn : Conn)
| ConnData (conn : Conn) (packet : DataPacket)
| ConnClose (conn : Conn)
| ConnError (conn : Conn)
(* timers and coroutines *)
| HeartbeatFires (open : bool)
| TimeoutFires (i : nat) (open : bool)
| UploadResumes (i : nat) (o : ChanObs).

Definition guarded (b : bool) (f : App -> App) (s : App) : App :=
  if b then f s else s.

(** The handlers attached to a connection, if any. *)
Inductive Handlers :=
| SenderHandlers (cl : Closure)
| ReceiverHandlers
| NoHandlers.

Definition handlersOf (conn : Conn) (s : App) : Handlers :=
  match conn with
  | outgoing n =>
      match dialed s !! n with
      | Some cl => SenderHandlers cl
      | None => NoHandlers
      end
  | incoming n =>
      if bool_decide (n ∈ accepted s) then ReceiverHandlers else NoHandlers
  end.

Definition handle (e : Event) (s : App) : App :=
  match e with
  | EnterApp => enterApp s
  | GoHome => goHome s
  | ClickTab t =>
      guarded (in_app s) (withActiveTab t) s
  | TypeTargetId value =>
      guarded (connectPanel s)
        (withTargetId (String.substring 0 6 value)) s
  | ClickConnect => guarded (connectButton s) connectToPeer s
  | SelectFile file => guarded (filePanel s) (processFile file) s
  | ClearFile => guarded (clearFileButton s) (withSelectedFile None) s
  | ClickSend => guarded (sendButton s) requestSend s
  | ClickForceStart =>
      guarded (forceStartButton s) (startChunkedUpload (selectedFile s)) s
  | ClickAccept open => guarded (requestModal s) (acceptTransfer open) s
  | ClickRetry open => guarded (retryButton s) (acceptTransfer open) s
  | ClickDecline => guarded (requestModal s) rejectTransfer s
  | ClickReset confirmed => guarded (resetButton s) (reset confirmed) s
  | PeerOpen => guarded (peerRef s) peerOnOpen s
  | PeerError t => guarded (peerRef s) (peerOnError t) s
  | PeerConnection n => guarded (peerRef s) (handleIncomingConnection n) s
  | ConnOpen conn =>
      match handlersOf conn s with
      | SenderHandlers _ => senderOnOpen conn s
      | _ => s
      end
  | ConnData conn packet =>
      match handlersOf conn s with
      | SenderHandlers cl => senderOnData cl packet s
      | ReceiverHandlers => receiverOnData packet s
      | NoHandlers => s
      end
  | ConnClose conn =>
      match handlersOf conn s with
      | SenderHandlers cl => senderOnClose cl s
      | ReceiverHandlers => receiverOnClose s
      | NoHandlers => s
      end
  | ConnError conn =>
      match handlersOf conn s with
      | SenderHandlers _ => senderOnError s
      | ReceiverHandlers => receiverOnError s
      | NoHandlers => s
      end
  | HeartbeatFires open => heartbeatFires open s
  | TimeoutFires i open =>
      match timeouts s !! i with
      | Some t => timeoutFires t open (withTimeouts (delete i (timeouts s)) s)
      | None => s
      end
  | UploadResumes i o => uploadResumes i o s
  end.

(** One event: the handler runs, the component renders, the effect runs. *)
Definition step (s : App) (e : Event) : App :=
  syncIncomingMetaRef (handle e s).

Definition run (events : list Event) (s : App) : App :=
  fold_left step events s.

(** ** One transfer, end to end *)

(** The [k]-th window the loop cuts: [file.slice(offset, offset + CHUNK_SIZE)]
    at [offset = k * CHUNK_SIZE]. *)
Definition chunkAt (file : File) (k : nat) : list Byte.byte :=
  slice (file_bytes file) (Z.of_nat k * CHUNK_SIZE)
    (Z.of_nat k * CHUNK_SIZE + CHUNK_SIZE).

(** How many iterations pass the test [offset < file.size]. *)
Definition nchunks (file : File) : nat :=
  Z.to_nat ((file_size file + CHUNK_SIZE - 1) / CHUNK_SIZE).

Definition chunksOf (file : File) : list (list Byte.byte) :=
  map (chunkAt file) (seq 0 (nchunks file)).

(** A coroutine run on its own: the [i]-th upload resumes once for each
    observation of the channel. *)
Definition runUpload (i : nat) (obs : list ChanObs) (s : App) : App :=
  fold_left (fun s o => uploadResumes i o s) obs s.

Definition finished (i : nat) (file : File) (s : App) : Prop :=
  uploads s !! i = Some (mkUpload file Finished).

(** The receiver takes in packets one after the other. *)
Definition deliver (packets : list DataPacket) (rx : App) : App :=
  fold_left (fun r p => receiverOnData p r) packets rx.

(** The packets [s'] has sent beyond those of [s], and likewise the
    progress reports. *)
Definition newlySent (s s' : App) : list DataPacket :=
  map snd (drop (length (sent s)) (sent s')).

Definition newReports (s s' : App) : list JsNum :=
  drop (length (progressLog s)) (progressLog s').

(** An integer percentage, and the order on reports. *)
Definition isPercent (p : JsNum) : Prop :=
  match p with
  | Num z => 0 <= z <= 100
  | _ => False
  end.

Definition js_le (p q : JsNum) : Prop :=
  match p, q with
  | Num a, Num b => a <= b
  | _, _ => False
  end.

Definition isChunk (p : DataPacket) : bool :=
  match p with
  | file_chunk _ => true
  | _ => false
  end.

Definition hasChunk (l : list (Conn * DataPacket)) : bool :=
  existsb (fun cp => isChunk cp.2) l.

(** Events that make the sender start an upload: an [approve] arriving on
    a connection it dialled, or FORCE START pressed while the button is
    shown. *)
Definition isApprove (e : Event) : bool :=
  match e with
  | ConnData (outgoing _) approve => true
  | _ => false
  end.

Definition startsUpload (s : App) (e : Event) : bool :=
  match e with
  | ConnData (outgoing n) approve => bool_decide (is_Some (dialed s !! n))
  | ClickForceStart => forceStartButton s
  | _ => false
  end.

(** ** Invariants of the upload coroutine *)

(** What an upload has sent once [k] chunks are out, and what it has
    reported. *)
Definition closing (pc : UploadPc) : list DataPacket :=
  match pc with
  | Finished => [file_end]
  | _ => []
  end.

Definition sentBy (file : File) (k : nat) (pc : UploadPc) : list DataPacket :=
  file_start :: map file_chunk (take k (chunksOf file)) ++ closing pc.

Definition reportAfter (file : File) (j : nat) : JsNum :=
  min100 (roundPercent (Z.of_nat j * CHUNK_SIZE + CHUNK_SIZE) (file_size file)).

Definition reportsBy (file : File) (k : nat) : list JsNum :=
  map (reportAfter file) (seq 0 k).

(** [pc] is a point of the loop at which [k] chunks are out. *)
Definition pcIndex (file : File) (pc : UploadPc) (k : nat) : Prop :=
  match pc with
  | AwaitPause => k = 0%nat
  | AwaitDrain offset => offset = Z.of_nat k * CHUNK_SIZE
  | AwaitBuffer offset chunk =>
      offset = Z.of_nat k * CHUNK_SIZE /\ (k < nchunks file)%nat /\
      chunk = chunkAt file k
  | Finished => k = nchunks file
  | Lost => True
  | Threw => False
  end.

(** The [i]-th upload of [s] was started in state [s0] on connection
    [conn], is at [pc], and [k] chunks are out. *)
Record UploadInv (file : File) (conn : Conn) (s0 : App)
    (i k : nat) (pc : UploadPc) (s : App) : Prop := mkUploadInv {
  inv_conn : connRef s = Some conn;
  inv_task : uploads s !! i = Some (mkUpload file pc);
  inv_pc : pcIndex file pc k;
  inv_bound : (k <= nchunks file)%nat;
  inv_sent : sent s = sent s0 ++ map (pair conn) (sentBy file k pc);
  inv_log : progressLog s = progressLog s0 ++ reportsBy file k;
}.

(** How many more observations without backpressure an upload needs to
    reach the end of the file. *)
Definition stepsLeft (file : File) (pc : UploadPc) (k : nat) : nat :=
  match pc with
  | AwaitPause => S (nchunks file)
  | AwaitDrain _ => S (nchunks file - k)
  | AwaitBuffer _ _ => nchunks file - k
  | _ => 0
  end.

Definition unhindered (o : ChanObs) : nat :=
  if backpressured o then 0 else 1.

Definition alive (pc : UploadPc) : Prop :=
  match pc with
  | Lost | Threw => False
  | _ => True
  end.

(** ** What the receiver reports *)

(** The byte counts the receiver passes through while the chunks [cs]
    arrive, starting from [a]. *)
Fixpoint runningTotals (a : Z) (cs : list (list Byte.byte)) : list Z :=
  match cs with
  | [] => []
  | c :: cs => (a + byteLength c) :: runningTotals (a + byteLength c) cs
  end.

Definition chunkReports (rx : App) (cs : list (list Byte.byte)) : list JsNum :=
  match incomingMetaRef rx with
  | Some meta =>
      map (fun a => roundPercent a (meta_size meta))
        (runningTotals (receivedSizeRef rx) cs)
  | None => []
  end.

(** The reports while the packets of an upload at [k], [pc] arrive. *)
Definition receiverReports (file : File) (k : nat) (pc : UploadPc) (rx : App)
  : list JsNum :=
  Num 0 :: chunkReports (receiverOnData file_start rx) (take k (chunksOf file))
  ++ match incomingMetaRef rx with
     | Some _ => map (fun _ => Num 100) (closing pc)
     | None => []
     end.

(** ** Sessions, event by event *)

(** The state before the [k]-th event of a session. *)
Definition stateAt (events : list Event) (k : nat) : App :=
  run (take k events) initialApp.

(** An upload that is over: it has returned or thrown. *)
Definition ended (u : Upload) : bool :=
  match up_pc u with
  | Finished | Lost | Threw => true
  | _ => false
  end.

(** No offer is pending and no upload is under way. *)
Definition atRest (s : App) : Prop :=
  status s <> WAITING_APPROVAL /\ Forall (fun u => ended u = true) (uploads s).

(** The events after which an upload can start again: a press of SEND,
    an [approve] from a peer that was dialled, an offer from a peer that
    connected. *)
Definition reopens (e : Event) : bool :=
  match e with
  | ClickSend => true
  | ConnData (outgoing _) approve => true
  | ConnData (incoming _) (file_meta _) => true
  | _ => false
  end.

(** ** Sample sessions *)

Definition abc : list Byte.byte := [Byte.x61; Byte.x62; Byte.x63].
Definition abc_txt : File := mkFile "abc.txt" "text/plain" abc.

Definition empty_bin : File := mkFile "empty.bin" "application/octet-stream" [].

Definition clear : ChanObs := mkObs true (Some 0).

(** The sender's side up to the offer. *)
Definition offerScript : list Event :=
  [EnterApp; PeerOpen; TypeTargetId "123456"; ClickConnect;
   ConnOpen (outgoing 0); SelectFile abc_txt; ClickSend].

Definition offered : App := run offerScript initialApp.

(** The sender does not wait for the answer and presses FORCE START. *)
Definition forceStartScript : list Event :=
  offerScript
  ++ [ClickForceStart; UploadResumes 0 clear; UploadResumes 0 clear].

(** The sender offers a file of one byte, drops another file of three
    bytes on the panel while waiting, and presses FORCE START. *)
Definition x_bin : File := mkFile "x.bin" "application/octet-stream" [Byte.x78].

Definition swapScript : list Event :=
  [EnterApp; PeerOpen; TypeTargetId "123456"; ClickConnect;
   ConnOpen (outgoing 0); SelectFile x_bin; ClickSend;
   SelectFile abc_txt; ClickForceStart;
   UploadResumes 0 clear; UploadResumes 0 clear].

(** The receiver's side of a session: it takes in, in order, every packet
    the sender has sent. *)
Definition receivedFrom (sender : App) : list Event :=
  [EnterApp; PeerOpen; PeerConnection 0]
  ++ map (fun cp => ConnData (incoming 0) cp.2) (sent sender).

(** The receiver's side: connection, offer, Accept. *)
Definition acceptScript (meta : FileMetadata) : list Event :=
  [EnterApp; PeerOpen; PeerConnection 0;
   ConnData (incoming 0) (file_meta meta); ClickAccept true].

Definition accepted_abc : App :=
  run (acceptScript (mkMeta "abc.txt" 3 "text/plain")) initialApp.

Definition accepted_empty : App :=
  run (acceptScript (mkMeta "empty.bin" 0 "application/octet-stream"))
    initialApp.

(** The receiver was promised ten bytes and gets three. *)
Definition shortScript : list Event :=
  acceptScript (mkMeta "ten.bin" 10 "application/octet-stream")
  ++ [ConnData (incoming 0) file_start;
      ConnData (incoming 0) (file_chunk abc);
      ConnData (incoming 0) file_end].

(** The receiver gets a transfer it was never offered. *)
Definition unofferedScript : list Event :=
  [EnterApp; PeerOpen; PeerConnection 0;
   ConnData (incoming 0) file_start;
   ConnData (incoming 0) (file_chunk abc);
   ConnData (incoming 0) file_end].

(** A complete reception, then "Start New Transfer". *)
Definition receiveThenResetScript : list Event :=
  acceptScript (mkMeta "abc.txt" 3 "text/plain")
  ++ [ConnData (incoming 0) file_start;
      ConnData (incoming 0) (file_chunk abc);
      ConnData (incoming 0) file_end;
      ClickReset true].

(** The sender dials, the channel never opens, the timer runs out. *)
Definition dialTimeoutScript : list Event :=
  [EnterApp; PeerOpen; TypeTargetId "123456"; ClickConnect;
   TimeoutFires 0 false].

(** The receiver declines the offer. *)
Definition rejectedScript : list Event :=
  offerScript ++ [ConnData (outgoing 0) reject].

(** A connection with its heartbeat running reports an error. *)
Definition errorScript : list Event :=
  [EnterApp; PeerOpen; PeerConnection 0; ConnError (incoming 0);
   HeartbeatFires true].

(** A second peer connects while the first connection is still open. *)
Definition takeoverScript : list Event :=
  [EnterApp; PeerOpen; PeerConnection 0; PeerConnection 1;
   HeartbeatFires true; HeartbeatFires true].

(** The sender selects a file, loses the connection, dials again and,
    without having offered anything, receives [approve]. *)
Definition unsolicitedApproveScript : list Event :=
  [EnterApp; PeerOpen; TypeTargetId "123456"; ClickConnect;
   ConnOpen (outgoing 0); SelectFile abc_txt; ConnClose (outgoing 0);
   ClickConnect; ConnOpen (outgoing 1); ConnData (outgoing 1) approve;
   UploadResumes 0 clear; UploadResumes 0 clear].

(** The sender presses FORCE START, and then the receiver declines. *)
Definition rejectAfterForceStartScript : list Event :=
  offerScript
  ++ [ClickForceStart; ConnData (outgoing 0) reject;
      UploadResumes 0 clear; UploadResumes 0 clear].

(** The receiver declines; the sender's timer fires and heartbeats go on. *)
Definition afterRejectScript : list Event :=
  [TimeoutFires 1 true; HeartbeatFires true; ClickTab receive_tab;
   ClickForceStart; UploadResumes 0 clear].

(** ** More of the component *)

(** The upload is parked at the head of an iteration, at [offset]. *)
Definition parkedAt (pc : UploadPc) (offset : Z) : Prop :=
  match pc with
  | AwaitPause => offset = 0
  | AwaitDrain offset' => offset = offset'
  | _ => False
  end.

(** The channel is open but its outbound buffer is over the mark. *)
Definition congested (o : ChanObs) : Prop :=
  obs_open o = true /\ backpressured o = true.

(** Packets for which the receiver's data handler has no branch. *)
Definition ignoredByReceiver (p : DataPacket) : bool :=
  match p with
  | handshake | approve | file_whole | heartbeat => true
  | _ => false
  end.

(** The bytes held in the receive buffer. *)
Definition bufferedBytes (chunks : list Blob) : Z :=
  byteLength (concat (map blob_bytes chunks)).

(** The packets an event can make the component send. *)
Definition causes (e : Event) (p : DataPacket) : bool :=
  match e, p with
  | ClickSend, file_meta _ => true
  | ClickForceStart, file_start => true
  | ConnData (outgoing _) approve, file_start => true
  | ClickAccept true, approve => true
  | ClickRetry true, approve => true
  | ClickDecline, reject => true
  | HeartbeatFires true, heartbeat => true
  | UploadResumes _ _, file_chunk _ => true
  | UploadResumes _ _, file_end => true
  | _, _ => false
  end.

(** [s'] has sent what [s] had, and then only packets that satisfy [ok]. *)
Definition sendsOnly (ok : DataPacket -> bool) (s s' : App) : Prop :=
  exists packets,
    sent s' = sent s ++ packets /\ Forall (fun cp => ok cp.2 = true) packets.

(** The byte count is the number of bytes in the buffer. *)
Definition bufferCounted (s : App) : Prop :=
  receivedSizeRef s = bufferedBytes (receivedChunksRef s).

(** [n.toString()] for an integer [0 <= n]: its decimal digits. *)
Definition digitChar (d : Z) : Ascii.ascii :=
  Ascii.ascii_of_nat (48 + Z.to_nat d).

Fixpoint decimalOnto (fuel : nat) (n : Z) (acc : string) : string :=
  match fuel with
  | O => acc
  | S fuel =>
      let acc := String (digitChar (n mod 10)) acc in
      if n <? 10 then acc else decimalOnto fuel (n / 10) acc
  end.

Definition toString (n : Z) : string :=
  decimalOnto (S (Z.to_nat (Z.log2 n))) n "".

(** [String(x)] for an integral result. *)
Definition jsToString (x : JsNum) : string :=
  match x with
  | Num z => if z <? 0 then "-" +:+ toString (- z) else toString z
  | Infinity => "Infinity"
  | NegInfinity => "-Infinity"
  | NaN => "NaN"
  end.

(** [generateId]: [Math.floor(100000 + Math.random() * 900000).toString()],
    where [r] is what [Math.random()] has returned. *)
Definition generateIdNumber (r : Double) : JsNum :=
  mathFloor (fadd (ofInt 100000) (fmul r (ofInt 900000))).

Definition generateId (r : Double) : string := jsToString (generateIdNumber r).

(** [handleBeforeUnload]: does the page ask before it is closed? *)
Definition handleBeforeUnload (s : App) : bool :=
  (status_in s [TRANSFERRING] || bool_decide (is_Some (receivedFileUrl s)))%bool.

(** Every dialled connection was dialled from IDLE or FAILED. *)
Definition dialedFromRest (s : App) : Prop :=
  Forall (fun cl => cl_status cl = IDLE \/ cl_status cl = FAILED) (dialed s).


(** The event is an incoming connection. *)
Definition isPeerConnection (e : Event) : bool :=
  match e with
  | PeerConnection _ => true
  | _ => false
  end.

(** Until the first dial no file can be selected; the handlers of the
    first dialled connection therefore see none. *)
Definition noFileBeforeDial (s : App) : Prop :=
  match dialed s with
  | [] =>
      selectedFile s = None /\ (status s = IDLE \/ status s = FAILED) /\
      timeouts s = [] /\ accepted s = [] /\ uploads s = []
  | cl :: _ => cl_selectedFile cl = None
  end.
(** * Verification *)

(** ** Arithmetic of the windows *)

Lemma CHUNK_SIZE_pos : 0 < CHUNK_SIZE.
Proof. reflexivity. Qed.

(** From here on the proofs use [CHUNK_SIZE] through [CHUNK_SIZE_pos]
    only. *)
Local Opaque CHUNK_SIZE.

Lemma file_size_nonneg file : 0 <= file_size file.
Proof. unfold file_size. lia. Qed.

Lemma loop_test file (k : nat) :
  Z.of_nat k * CHUNK_SIZE < file_size file <-> (k < nchunks file)%nat.
Proof.
  pose proof CHUNK_SIZE_pos as HC. pose proof (file_size_nonneg file) as HS.
  unfold nchunks.
  set (S := file_size file) in *. set (C := CHUNK_SIZE) in *.
  assert (Hq : 0 <= (S + C - 1) / C) by (apply Z.div_pos; lia).
  pose proof (Z.mul_div_le (S + C - 1) C HC) as Hlo.
  pose proof (Z.mul_succ_div_gt (S + C - 1) C HC) as Hhi.
  split; intros H; nia.
Qed.

Lemma nchunks_pos_size file : (0 < nchunks file)%nat -> 0 < file_size file.
Proof. intros H. apply loop_test in H. lia. Qed.

Lemma slice_window (bytes : list Byte.byte) (offset : Z) :
  0 <= offset ->
  slice bytes offset (offset + CHUNK_SIZE)
  = take (Z.to_nat CHUNK_SIZE) (drop (Z.to_nat offset) bytes).
Proof.
  intros Hoff. pose proof CHUNK_SIZE_pos as HC. unfold slice, clampIndex.
  set (C := CHUNK_SIZE) in *. set (size := Z.of_nat (length bytes)).
  destruct (Z.ltb_spec offset 0) as [|_]; [lia|].
  destruct (Z.ltb_spec (offset + C) 0) as [|_]; [lia|].
  destruct (Z.le_gt_cases (offset + C) size) as [Hfull|Hshort].
  - (* a full window *)
    f_equal; [lia | f_equal; lia].
  - (* the last, short window, or none at all *)
    rewrite (take_ge _ (Z.to_nat C)) by (rewrite length_drop; lia).
    destruct (Z.le_gt_cases offset size) as [Hle|Hgt].
    + rewrite (Z.min_l offset) by lia.
      apply take_ge. rewrite length_drop. lia.
    + rewrite !drop_ge by lia. apply take_nil.
Qed.

Lemma chunkAt_take file k :
  chunkAt file k
  = take (Z.to_nat CHUNK_SIZE) (drop (k * Z.to_nat CHUNK_SIZE) (file_bytes file)).
Proof.
  pose proof CHUNK_SIZE_pos. unfold chunkAt.
  rewrite slice_window by lia. do 2 f_equal. lia.
Qed.

Lemma concat_chunks_take file n :
  concat (map (chunkAt file) (seq 0 n))
  = take (n * Z.to_nat CHUNK_SIZE) (file_bytes file).
Proof.
  induction n as [|n IH]; [done|].
  rewrite seq_S, map_app, concat_app, IH. simpl.
  rewrite app_nil_r, chunkAt_take, take_take_drop. f_equal. lia.
Qed.

Lemma concat_chunksOf file : concat (chunksOf file) = file_bytes file.
Proof.
  unfold chunksOf. rewrite concat_chunks_take. apply take_ge.
  pose proof CHUNK_SIZE_pos as HC.
  destruct (Nat.le_gt_cases (length (file_bytes file))
              (nchunks file * Z.to_nat CHUNK_SIZE)) as [|Hlt]; [done|].
  assert (Z.of_nat (nchunks file) * CHUNK_SIZE < file_size file) as Hk
    by (unfold file_size; lia).
  apply loop_test in Hk. lia.
Qed.

Lemma length_chunksOf file : length (chunksOf file) = nchunks file.
Proof. unfold chunksOf. by rewrite length_map, length_seq. Qed.

Lemma take_chunksOf file k :
  (k <= nchunks file)%nat ->
  take k (chunksOf file) = map (chunkAt file) (seq 0 k).
Proof.
  intros Hk. unfold chunksOf. rewrite firstn_map. f_equal.
  rewrite take_seq. f_equal. lia.
Qed.

Lemma take_S_chunksOf file k :
  (k < nchunks file)%nat ->
  take (S k) (chunksOf file) = take k (chunksOf file) ++ [chunkAt file k].
Proof.
  intros Hk. rewrite !take_chunksOf by lia. by rewrite seq_S, map_app.
Qed.

(** The scenario of the specification: 65536 bytes go out as two chunks of
    32768 bytes; 70000 bytes as two full chunks and a short one. *)
Example two_full_chunks :
  map byteLength
    (chunksOf (mkFile "a.txt" "text/plain"
                 (repeat Byte.x00 (Z.to_nat 65536))))
  = [32768; 32768].
Proof. vm_compute. reflexivity. Qed.

Example last_chunk_short :
  map byteLength
    (chunksOf (mkFile "b.bin" "" (repeat Byte.x00 (Z.to_nat 70000))))
  = [32768; 32768; 4464].
Proof. vm_compute. reflexivity. Qed.

(** ** The upload coroutine, step by step *)

Lemma startChunkedUpload_inv file conn s :
  connRef s = Some conn ->
  UploadInv file conn s (length (uploads s)) 0 AwaitPause
    (startChunkedUpload (Some file) s).
Proof.
  intros Hc. unfold startChunkedUpload. rewrite Hc.
  split; simpl; try done.
  - by rewrite lookup_app_r, Nat.sub_diag.
  - lia.
  - by rewrite app_nil_r.
Qed.

(** The loop test and what follows it, [k] chunks being out. *)
Lemma uploadLoop_spec file conn (k : nat) o s :
  connRef s = Some conn -> (k <= nchunks file)%nat ->
  exists s' pc,
    uploadLoop file (Z.of_nat k * CHUNK_SIZE) o s = (s', pc) /\
    pcIndex file pc k /\ pc <> AwaitPause /\
    connRef s' = Some conn /\ uploads s' = uploads s /\
    progressLog s' = progressLog s /\
    sent s' = sent s ++ map (pair conn) (closing pc) /\
    (obs_open o = true ->
     alive pc /\
     (stepsLeft file pc k <= S (nchunks file - k) - unhindered o)%nat).
Proof.
  intros Hc Hk. unfold uploadLoop, unhindered. rewrite Hc.
  destruct (Z.ltb_spec (Z.of_nat k * CHUNK_SIZE) (file_size file)) as [Hlt|Hge].
  - apply loop_test in Hlt.
    destruct (obs_open o); simpl.
    + destruct (backpressured o); eexists _, _; (split; [reflexivity|]);
        simpl; rewrite ?app_nil_r; repeat split; auto; lia.
    + eexists _, _; (split; [reflexivity|]); simpl; rewrite ?app_nil_r;
        repeat split; auto; done.
  - eexists _, _; (split; [reflexivity|]); simpl.
    repeat split; auto; try lia.
    destruct (Nat.eq_dec k (nchunks file)) as [|Hne]; [done|].
    assert (k < nchunks file)%nat as Hlt by lia. apply loop_test in Hlt. lia.
Qed.

Lemma closing_nil pc : pc <> Finished -> closing pc = [].
Proof. by destruct pc. Qed.

Lemma sentBy_end file (conn : Conn) k pc pc' :
  pc <> Finished ->
  map (pair conn) (sentBy file k pc) ++ map (pair conn) (closing pc')
  = map (pair conn) (sentBy file k pc').
Proof.
  intros Hpc. unfold sentBy. rewrite (closing_nil pc), app_nil_r by done.
  by rewrite <- map_app.
Qed.

Lemma sentBy_chunk file (conn : Conn) k pc :
  (k < nchunks file)%nat -> pc <> Finished ->
  map (pair conn) (sentBy file k pc) ++ [(conn, file_chunk (chunkAt file k))]
  = map (pair conn) (sentBy file (S k) AwaitPause).
Proof.
  intros Hk Hpc. unfold sentBy. rewrite take_S_chunksOf by done.
  rewrite (closing_nil pc) by done.
  simpl. by rewrite !app_nil_r, !map_app.
Qed.

(** One resumption keeps the invariant, at the same index or the next;
    on an open channel it brings the upload closer to its end unless it
    had to wait for the buffer to drain. *)
Lemma uploadResumes_inv file conn s0 i k pc o s :
  UploadInv file conn s0 i k pc s ->
  exists k' pc',
    (k <= k')%nat /\ UploadInv file conn s0 i k' pc' (uploadResumes i o s) /\
    (obs_open o = true -> alive pc ->
     alive pc' /\
     (stepsLeft file pc' k' <= stepsLeft file pc k - unhindered o)%nat).
Proof.
  intros [Hc Ht Hpc Hk Hs Hl]. unfold uploadResumes. rewrite Ht.
  assert (i < length (uploads s))%nat as Hi by (by eapply lookup_lt_Some).
  unfold resumeUpload. simpl up_pc. simpl up_file.
  destruct pc as [|offset|offset chunk| | |]; simpl in Hpc.
  - (* after the pause *)
    subst k.
    destruct (uploadLoop_spec file conn 0 o
                (withStatusMessage "Sending file..." s))
      as (s' & pc' & Hrun & Hpc' & Hne & Hc' & Hu' & Hl' & Hs' & Hgo);
      [done|lia|].
    change (Z.of_nat 0 * CHUNK_SIZE) with 0 in Hrun. rewrite Hrun.
    exists 0%nat, pc'. split; [done|]. split; [constructor|].
    + done.
    + simpl. rewrite Hu'. by apply list_lookup_insert_eq.
    + done.
    + lia.
    + change (sent (withUploads _ s')) with (sent s'). rewrite Hs'.
      change (sent (withStatusMessage _ s)) with (sent s).
      rewrite Hs, <- app_assoc. by rewrite sentBy_end.
    + change (progressLog (withUploads _ s')) with (progressLog s').
      by rewrite Hl'.
    + intros Ho _. destruct (Hgo Ho) as [Ha Hm]. split; [done|].
      rewrite Nat.sub_0_r in Hm. done.
  - (* after a backpressure wait *)
    subst offset.
    destruct (uploadLoop_spec file conn k o s)
      as (s' & pc' & Hrun & Hpc' & Hne & Hc' & Hu' & Hl' & Hs' & Hgo);
      [done..|].
    rewrite Hrun.
    exists k, pc'. split; [done|]. split; [constructor|].
    + done.
    + simpl. rewrite Hu'. by apply list_lookup_insert_eq.
    + done.
    + done.
    + change (sent (withUploads _ s')) with (sent s').
      rewrite Hs', Hs, <- app_assoc. by rewrite sentBy_end.
    + change (progressLog (withUploads _ s')) with (progressLog s').
      by rewrite Hl'.
    + intros Ho _. by apply Hgo.
  - (* the chunk has been read: send it, advance, report *)
    destruct Hpc as (-> & Hlt & ->). rewrite Hc.
    set (s1 := setProgress _ _).
    destruct (uploadLoop_spec file conn (S k) o s1)
      as (s' & pc' & Hrun & Hpc' & Hne & Hc' & Hu' & Hl' & Hs' & Hgo);
      [done|lia|].
    replace (Z.of_nat (S k) * CHUNK_SIZE)
      with (Z.of_nat k * CHUNK_SIZE + CHUNK_SIZE) in Hrun by lia.
    rewrite Hrun.
    exists (S k), pc'. split; [lia|]. split; [constructor|].
    + done.
    + simpl. rewrite Hu'. by apply list_lookup_insert_eq.
    + done.
    + lia.
    + change (sent (withUploads _ s')) with (sent s'). rewrite Hs'.
      change (sent s1) with (sent s ++ [(conn, file_chunk (chunkAt file k))]).
      rewrite Hs, <- !app_assoc.
      rewrite (app_assoc _ [_]), sentBy_chunk by done.
      by rewrite sentBy_end.
    + change (progressLog (withUploads _ s')) with (progressLog s').
      rewrite Hl'.
      change (progressLog s1)
        with (progressLog s ++ [reportAfter file k]).
      rewrite Hl, <- app_assoc. f_equal.
      unfold reportsBy. by rewrite seq_S, map_app.
    + intros Ho _. destruct (Hgo Ho) as [Ha Hm]. split; [done|].
      simpl in *. lia.
  - exists k, Finished. split; [done|]. split.
    + constructor; try done. simpl. by rewrite list_insert_id.
    + intros _ _. split; [done|]. simpl. lia.
  - exists k, Lost. split; [done|]. split; [|done].
    constructor; try done. simpl. by rewrite list_insert_id.
  - done.
Qed.

Lemma runUpload_inv file conn s0 i obs : forall k pc s,
  UploadInv file conn s0 i k pc s ->
  exists k' pc',
    (k <= k')%nat /\ UploadInv file conn s0 i k' pc' (runUpload i obs s) /\
    (Forall (fun o => obs_open o = true) obs -> alive pc ->
     alive pc' /\
     (stepsLeft file pc' k'
      <= stepsLeft file pc k - sum_list (map unhindered obs))%nat).
Proof.
  induction obs as [|o obs IH]; intros k pc s Hinv; simpl.
  - exists k, pc. split; [done|]. split; [done|].
    intros _ Ha. split; [done|lia].
  - destruct (uploadResumes_inv _ _ _ _ _ _ o _ Hinv)
      as (k1 & pc1 & Hk1 & H1 & Hgo1).
    destruct (IH _ _ _ H1) as (k2 & pc2 & Hk2 & H2 & Hgo2).
    exists k2, pc2. split; [lia|]. split; [done|].
    intros Hopen Ha. inversion Hopen as [|? ? Ho Hobs]; subst.
    destruct (Hgo1 Ho Ha) as [Ha1 Hm1]. destruct (Hgo2 Hobs Ha1) as [Ha2 Hm2].
    split; [done|lia].
Qed.

(** An upload whose channel stays open, and lets it through once more
    than there are chunks, reaches the end of the file. *)
Lemma runUpload_completes file conn s i obs :
  connRef s = Some conn -> i = length (uploads s) ->
  Forall (fun o => obs_open o = true) obs ->
  (nchunks file < sum_list (map unhindered obs))%nat ->
  uploads (runUpload i obs (startChunkedUpload (Some file) s)) !! i
  = Some (mkUpload file Finished).
Proof.
  intros Hc -> Hopen Hcount.
  destruct (runUpload_inv file conn s _ obs _ _ _
              (startChunkedUpload_inv file conn s Hc))
    as (k & pc & _ & [_ Ht Hpc Hk _ _] & Hgo).
  destruct (Hgo Hopen I) as [Ha Hm]. rewrite Ht. simpl in Hm.
  destruct pc; simpl in *; try done; lia.
Qed.

Lemma withUploads_same s : withUploads (uploads s) s = s.
Proof. by destruct s. Qed.

Lemma uploadResumes_ended i o s file pc :
  uploads s !! i = Some (mkUpload file pc) ->
  pc = Finished \/ pc = Lost \/ pc = Threw ->
  uploadResumes i o s = s.
Proof.
  intros Ht Hpc. unfold uploadResumes. rewrite Ht. unfold resumeUpload.
  simpl up_pc. simpl up_file.
  destruct Hpc as [-> | [-> | ->]];
    by rewrite list_insert_id, withUploads_same.
Qed.

(** ** The receiver, packet by packet *)

Lemma deliver_app p q rx : deliver (p ++ q) rx = deliver q (deliver p rx).
Proof. apply fold_left_app. Qed.

Lemma deliver_chunks cs : forall rx,
  let rx' := deliver (map file_chunk cs) rx in
  receivedChunksRef rx'
  = receivedChunksRef rx ++ map (fun c => mkBlob c "") cs /\
  receivedSizeRef rx' = receivedSizeRef rx + byteLength (concat cs) /\
  incomingMetaRef rx' = incomingMetaRef rx /\
  progressLog rx' = progressLog rx ++ chunkReports rx cs.
Proof.
  induction cs as [|c cs IH]; intros rx; cbn zeta.
  - unfold chunkReports, byteLength. simpl.
    destruct (incomingMetaRef rx); rewrite !app_nil_r; repeat split; lia.
  - change (deliver (map file_chunk (c :: cs)) rx)
      with (deliver (map file_chunk cs) (receiverOnData (file_chunk c) rx)).
    destruct (IH (receiverOnData (file_chunk c) rx)) as (Hb & Hn & Hm & Hl).
    rewrite Hb, Hn, Hm, Hl. clear IH Hb Hn Hm Hl.
    unfold chunkReports, byteLength.
    change (concat (c :: cs)) with (c ++ concat cs).
    rewrite length_app, Nat2Z.inj_add.
    unfold receiverOnData. simpl.
    destruct (incomingMetaRef rx) as [meta|] eqn:Hmeta; simpl;
      rewrite ?Hmeta, <- ?app_assoc; repeat split; try done;
      unfold byteLength; lia.
Qed.

Lemma newBlob_chunks cs type :
  newBlob (map (fun c => mkBlob c "") cs) type = mkBlob (concat cs) type.
Proof. unfold newBlob. by rewrite map_map, map_id. Qed.

Lemma receiverOnData_file_end meta rx :
  incomingMetaRef rx = Some meta ->
  receiverOnData file_end rx
  = setProgress (Num 100)
      (withStatusMessage "File received successfully!"
         (withStatus COMPLETED
            (withReceivedFileUrl
               (Some (newBlob (receivedChunksRef rx) (meta_type meta))) rx))).
Proof. intros Hm. unfold receiverOnData. by rewrite Hm. Qed.

Lemma receiverOnData_file_end_none rx :
  incomingMetaRef rx = None -> receiverOnData file_end rx = rx.
Proof. intros Hm. unfold receiverOnData. by rewrite Hm. Qed.

(** [file-start], then the chunks [cs], then [file-end], at a receiver that
    has a descriptor on record. *)
Lemma deliver_transfer cs meta rx :
  incomingMetaRef rx = Some meta ->
  let rx1 := deliver (file_start :: map file_chunk cs) rx in
  let rx2 := receiverOnData file_end rx1 in
  receivedSizeRef rx1 = byteLength (concat cs) /\
  receivedFileUrl rx2 = Some (mkBlob (concat cs) (meta_type meta)) /\
  status rx2 = COMPLETED.
Proof.
  intros Hm. cbn zeta.
  change (deliver (file_start :: map file_chunk cs) rx)
    with (deliver (map file_chunk cs) (receiverOnData file_start rx)).
  destruct (deliver_chunks cs (receiverOnData file_start rx))
    as (Hb & Hn & Hm' & _).
  set (rx1 := deliver _ _) in *.
  change (incomingMetaRef (receiverOnData file_start rx))
    with (incomingMetaRef rx) in Hm'.
  change (receivedChunksRef (receiverOnData file_start rx))
    with (@nil Blob) in Hb.
  change (receivedSizeRef (receiverOnData file_start rx)) with 0 in Hn.
  split; [by rewrite Hn|].
  rewrite (receiverOnData_file_end meta) by congruence.
  split; [|done].
  change (receivedFileUrl _)
    with (Some (newBlob (receivedChunksRef rx1) (meta_type meta))).
  by rewrite Hb, app_nil_l, newBlob_chunks.
Qed.

Lemma newlySent_app s s' (conn : Conn) packets :
  sent s' = sent s ++ map (pair conn) packets -> newlySent s s' = packets.
Proof.
  intros H. unfold newlySent. rewrite H, drop_app_length, map_map.
  apply map_id.
Qed.

Lemma newReports_app s s' reports :
  progressLog s' = progressLog s ++ reports -> newReports s s' = reports.
Proof. intros H. unfold newReports. by rewrite H, drop_app_length. Qed.

(** ** The standalone runs are runs of the event machine *)

Lemma syncIncomingMetaRef_id s :
  incomingMetaRef s = incomingMeta s -> syncIncomingMetaRef s = s.
Proof. destruct s. simpl. by intros ->. Qed.

Lemma uploadLoop_meta file offset o s s' pc :
  uploadLoop file offset o s = (s', pc) ->
  incomingMeta s' = incomingMeta s /\ incomingMetaRef s' = incomingMetaRef s.
Proof.
  unfold uploadLoop. intros H. repeat case_match; by simplify_eq.
Qed.

Lemma uploadResumes_meta i o s :
  incomingMeta (uploadResumes i o s) = incomingMeta s /\
  incomingMetaRef (uploadResumes i o s) = incomingMetaRef s.
Proof.
  unfold uploadResumes. destruct (uploads s !! i) as [u|]; [|done].
  destruct (resumeUpload u o s) as [s' pc] eqn:Hr. simpl.
  unfold resumeUpload in Hr.
  repeat case_match; simplify_eq; try done;
    by match goal with
       | H : uploadLoop _ _ _ _ = _ |- _ => apply uploadLoop_meta in H
       end.
Qed.

Lemma run_UploadResumes i obs : forall s,
  incomingMetaRef s = incomingMeta s ->
  run (map (UploadResumes i) obs) s = runUpload i obs s.
Proof.
  induction obs as [|o obs IH]; intros s Hsync; [done|].
  destruct (uploadResumes_meta i o s) as [Hm Hr].
  change (run (map (UploadResumes i) (o :: obs)) s)
    with (run (map (UploadResumes i) obs)
            (syncIncomingMetaRef (uploadResumes i o s))).
  change (runUpload i (o :: obs) s) with (runUpload i obs (uploadResumes i o s)).
  rewrite syncIncomingMetaRef_id by congruence.
  apply IH. congruence.
Qed.

(** Packets that leave the descriptor alone. *)
Lemma receiverOnData_meta p rx :
  (forall meta, p <> file_meta meta) -> p <> reject ->
  incomingMeta (receiverOnData p rx) = incomingMeta rx /\
  incomingMetaRef (receiverOnData p rx) = incomingMetaRef rx /\
  accepted (receiverOnData p rx) = accepted rx.
Proof.
  intros Hmeta Hrej. unfold receiverOnData.
  repeat case_match; simplify_eq; try done. by destruct (Hmeta payload).
Qed.

Lemma run_ConnData n packets : forall rx,
  n ∈ accepted rx ->
  incomingMetaRef rx = incomingMeta rx ->
  Forall (fun p => (forall meta, p <> file_meta meta) /\ p <> reject) packets ->
  run (map (ConnData (incoming n)) packets) rx = deliver packets rx.
Proof.
  induction packets as [|p packets IH]; intros rx Hn Hsync Hall; [done|].
  inversion Hall as [|? ? [Hmeta Hrej] Hrest]; subst.
  destruct (receiverOnData_meta p rx Hmeta Hrej) as (Hm & Hr & Ha).
  change (run (map (ConnData (incoming n)) (p :: packets)) rx)
    with (run (map (ConnData (incoming n)) packets)
            (syncIncomingMetaRef (handle (ConnData (incoming n) p) rx))).
  change (deliver (p :: packets) rx)
    with (deliver packets (receiverOnData p rx)).
  simpl handle. rewrite bool_decide_eq_true_2 by done.
  rewrite syncIncomingMetaRef_id by congruence.
  apply IH; [by rewrite Ha|congruence|done].
Qed.

(** ** Round trip *)

(** C1.  A file of size [S] is cut into windows of [CHUNK_SIZE] = 32 KiB.
    When the sender's loop has run to its end (which it does whenever the
    channel stays open and lets it through once more than there are
    chunks), it has sent [file-start], the chunks in order and [file-end];
    a receiver with a descriptor on record that takes these packets in
    has counted [S] bytes before [file-end], and on [file-end] assembles
    the concatenation of the chunks in arrival order, which is the file,
    [S] bytes long. *)
Theorem round_trip_fidelity file conn s obs meta rx :
  connRef s = Some conn ->
  incomingMetaRef rx = Some meta ->
  let i := length (uploads s) in
  let s' := runUpload i obs (startChunkedUpload (Some file) s) in
  let chunks := chunksOf file in
  let artifact := mkBlob (concat chunks) (meta_type meta) in
  (Forall (fun o => obs_open o = true) obs ->
   (nchunks file < sum_list (map unhindered obs))%nat ->
   finished i file s') /\
  (finished i file s' ->
   newlySent s s' = file_start :: map file_chunk chunks ++ [file_end] /\
   receivedSizeRef (deliver (file_start :: map file_chunk chunks) rx)
   = file_size file /\
   receivedFileUrl (deliver (newlySent s s') rx) = Some artifact /\
   blob_bytes artifact = file_bytes file /\
   blob_size artifact = file_size file).
Proof.
  intros Hc Hm. cbn zeta. split.
  - intros Hopen Hcount. by eapply runUpload_completes.
  - unfold finished. intros Hfin.
    destruct (runUpload_inv file conn s _ obs _ _ _
                (startChunkedUpload_inv file conn s Hc))
      as (k & pc & _ & [_ Ht Hpc Hk Hs _] & _).
    rewrite Ht in Hfin. injection Hfin as ->. simpl in Hpc. subst k.
    apply newlySent_app in Hs. unfold sentBy in Hs.
    rewrite take_ge in Hs by (by rewrite length_chunksOf).
    destruct (deliver_transfer (chunksOf file) meta rx Hm) as (Hn & Hu & _).
    rewrite Hs. split; [done|].
    rewrite (app_comm_cons _ _ file_start), deliver_app.
    unfold blob_size. simpl blob_bytes.
    change (deliver (closing Finished) ?r) with (receiverOnData file_end r).
    rewrite Hn, Hu. unfold byteLength. by rewrite concat_chunksOf.
Qed.

Lemma round_trip_fidelity_witness :
  let s' := runUpload (length (uploads offered)) [clear; clear]
              (startChunkedUpload (Some abc_txt) offered) in
  finished (length (uploads offered)) abc_txt s' /\
  newlySent offered s'
  = file_start :: map file_chunk (chunksOf abc_txt) ++ [file_end] /\
  receivedSizeRef
    (deliver (file_start :: map file_chunk (chunksOf abc_txt)) accepted_abc)
  = file_size abc_txt.
Proof.
  destruct (round_trip_fidelity abc_txt (outgoing 0) offered [clear; clear]
              (mkMeta "abc.txt" 3 "text/plain") accepted_abc
              eq_refl eq_refl) as [Hruns Hthen].
  assert (Forall (fun o => obs_open o = true) [clear; clear]) as Hopen
    by (repeat constructor).
  assert (nchunks abc_txt < sum_list (map unhindered [clear; clear]))%nat
    as Hcount by (vm_compute; lia).
  pose proof (Hruns Hopen Hcount) as Hfin.
  destruct (Hthen Hfin) as (Hsent & Hsize & _).
  split; [exact Hfin|]. split; [exact Hsent|exact Hsize].
Defined.

(** ** Doubles *)

Lemma ONE_pos : 0 < ONE.
Proof. reflexivity. Qed.

Local Opaque ONE OVERFLOW.

Lemma div_le_cross n1 d1 n2 d2 :
  0 < d1 -> 0 < d2 -> n1 * d2 <= n2 * d1 -> n1 / d1 <= n2 / d2.
Proof.
  intros Hd1 Hd2 H. apply Z.div_le_lower_bound; [done|].
  pose proof (Z.mul_div_le n1 d1 Hd1). nia.
Qed.

Lemma roundNearestEven_floor n d :
  0 < d -> n / d <= roundNearestEven n d <= n / d + 1.
Proof.
  intros Hd. unfold roundNearestEven. cbv zeta. repeat case_match; lia.
Qed.

Lemma roundNearestEven_mono n1 d1 n2 d2 :
  0 < d1 -> 0 < d2 -> n1 * d2 <= n2 * d1 ->
  roundNearestEven n1 d1 <= roundNearestEven n2 d2.
Proof.
  intros Hd1 Hd2 H.
  pose proof (div_le_cross n1 d1 n2 d2 Hd1 Hd2 H) as Hq.
  pose proof (Z.div_mod n1 d1 ltac:(lia)) as E1.
  pose proof (Z.mod_pos_bound n1 d1 Hd1) as B1.
  pose proof (Z.div_mod n2 d2 ltac:(lia)) as E2.
  pose proof (Z.mod_pos_bound n2 d2 Hd2) as B2.
  unfold roundNearestEven. cbv zeta.
  destruct (Z.eq_dec (n1 / d1) (n2 / d2)) as [Heq|Hne].
  - rewrite <- Heq in *.
    assert (n1 mod d1 * d2 <= n2 mod d2 * d1) as Hr by nia.
    destruct (Z.ltb_spec (2 * (n1 mod d1)) d1); [repeat case_match; lia|].
    destruct (Z.ltb_spec (2 * (n2 mod d2)) d2); [exfalso; nia|].
    destruct (Z.ltb_spec d1 (2 * (n1 mod d1))).
    + destruct (Z.ltb_spec d2 (2 * (n2 mod d2))); [lia|exfalso; nia].
    + repeat case_match; lia.
  - repeat case_match; lia.
Qed.

Lemma spacingExp_nonneg q : 0 <= spacingExp q.
Proof. unfold spacingExp. lia. Qed.

Lemma spacingExp_mono q1 q2 : q1 <= q2 -> spacingExp q1 <= spacingExp q2.
Proof.
  intros H. unfold spacingExp. pose proof (Z.log2_le_mono q1 q2 H). lia.
Qed.

(** A value in the binade of spacing 2^e rounds to between 2^52 and 2^53
    spacings. *)
Lemma roundPos_upper n d :
  0 <= n -> 0 < d ->
  roundPos n d <= 2 ^ 53 * 2 ^ spacingExp (n / d).
Proof.
  intros Hn Hd. unfold roundPos. cbv zeta.
  set (e := spacingExp (n / d)).
  assert (0 < 2 ^ e) as He
    by (apply Z.pow_pos_nonneg; [lia|apply spacingExp_nonneg]).
  apply Z.mul_le_mono_nonneg_r; [lia|].
  assert (n / d < 2 ^ 53 * 2 ^ e) as Hq.
  { destruct (Z.eq_dec (n / d) 0) as [->|Hne]; [lia|].
    assert (0 < n / d) as Hpos
      by (pose proof (Z.div_pos n d Hn Hd); lia).
    pose proof (Z.log2_spec (n / d) Hpos) as [_ Hlt].
    rewrite <- Z.pow_add_r by (try lia; apply spacingExp_nonneg).
    eapply Z.lt_le_trans; [exact Hlt|].
    apply Z.pow_le_mono_r; [lia|]. unfold e, spacingExp. lia. }
  assert (n / (d * 2 ^ e) < 2 ^ 53) as Hm.
  { apply Z.div_lt_upper_bound; [lia|].
    pose proof (Z.mul_succ_div_gt n d Hd). nia. }
  pose proof (roundNearestEven_floor n (d * 2 ^ e) ltac:(lia)). lia.
Qed.

Lemma roundPos_lower n d :
  0 <= n -> 0 < d -> 0 < spacingExp (n / d) ->
  2 ^ 52 * 2 ^ spacingExp (n / d) <= roundPos n d.
Proof.
  intros Hn Hd Hs. unfold roundPos. cbv zeta.
  set (e := spacingExp (n / d)) in *.
  assert (0 < 2 ^ e) as He by (apply Z.pow_pos_nonneg; lia).
  apply Z.mul_le_mono_nonneg_r; [lia|].
  assert (2 ^ 52 * 2 ^ e <= n / d) as Hq.
  { assert (0 < n / d) as Hpos.
    { destruct (Z.eq_dec (n / d) 0) as [E|E].
      - unfold e, spacingExp in Hs. rewrite E in Hs. simpl in Hs. lia.
      - pose proof (Z.div_pos n d Hn Hd). lia. }
    pose proof (Z.log2_spec (n / d) Hpos) as [Hle _].
    rewrite <- Z.pow_add_r by lia.
    eapply Z.le_trans; [|exact Hle].
    apply Z.pow_le_mono_r; [lia|]. unfold e, spacingExp in *. lia. }
  assert (2 ^ 52 <= n / (d * 2 ^ e)) as Hm.
  { apply Z.div_le_lower_bound; [lia|].
    pose proof (Z.mul_div_le n d Hd). nia. }
  pose proof (roundNearestEven_floor n (d * 2 ^ e) ltac:(lia)). lia.
Qed.

Lemma roundPos_mono n1 d1 n2 d2 :
  0 <= n1 -> 0 < d1 -> 0 < d2 -> n1 * d2 <= n2 * d1 ->
  roundPos n1 d1 <= roundPos n2 d2.
Proof.
  intros Hn1 Hd1 Hd2 H.
  assert (0 <= n2) as Hn2 by nia.
  pose proof (div_le_cross n1 d1 n2 d2 Hd1 Hd2 H) as Hq.
  pose proof (spacingExp_mono _ _ Hq) as He.
  pose proof (spacingExp_nonneg (n1 / d1)) as He1.
  destruct (Z.eq_dec (spacingExp (n1 / d1)) (spacingExp (n2 / d2)))
    as [Heq|Hne].
  - unfold roundPos. cbv zeta. rewrite <- Heq.
    set (e := spacingExp (n1 / d1)) in *.
    assert (0 < 2 ^ e) by (apply Z.pow_pos_nonneg; lia).
    apply Z.mul_le_mono_nonneg_r; [lia|].
    apply roundNearestEven_mono; nia.
  - pose proof (roundPos_upper n1 d1 Hn1 Hd1) as Hup.
    pose proof (roundPos_lower n2 d2 Hn2 Hd2 ltac:(lia)) as Hlo.
    assert (2 ^ 53 * 2 ^ spacingExp (n1 / d1)
            <= 2 ^ 52 * 2 ^ spacingExp (n2 / d2)); [|lia].
    change (2 ^ 53) with (2 ^ 52 * 2 ^ 1).
    rewrite <- Z.mul_assoc, <- Z.pow_add_r by lia.
    apply Z.mul_le_mono_nonneg_l; [lia|].
    apply Z.pow_le_mono_r; lia.
Qed.

(** The result depends on the quotient alone. *)
Lemma roundPos_ext n1 d1 n2 d2 :
  0 <= n1 -> 0 < d1 -> 0 < d2 -> n1 * d2 = n2 * d1 ->
  roundPos n1 d1 = roundPos n2 d2.
Proof.
  intros Hn1 Hd1 Hd2 H. assert (0 <= n2) by nia.
  apply Z.le_antisymm; apply roundPos_mono; lia.
Qed.

Lemma roundPos_nonneg n d : 0 <= n -> 0 < d -> 0 <= roundPos n d.
Proof.
  intros Hn Hd. unfold roundPos. cbv zeta.
  set (e := spacingExp (n / d)).
  assert (0 < 2 ^ e)
    by (apply Z.pow_pos_nonneg; [lia|apply spacingExp_nonneg]).
  pose proof (roundNearestEven_floor n (d * 2 ^ e) ltac:(lia)).
  pose proof (Z.div_pos n (d * 2 ^ e) Hn ltac:(lia)). nia.
Qed.

Lemma nearestDouble_pos n d :
  0 <= n -> 0 < d ->
  nearestDouble n d
  = if OVERFLOW <=? roundPos n d then PlusInfinity else Finite (roundPos n d).
Proof.
  intros Hn Hd. unfold nearestDouble. cbv zeta.
  rewrite (Z.abs_eq n), (Z.abs_eq d) by lia.
  destruct (Z.leb_spec OVERFLOW (roundPos n d)) as [Ho|Ho].
  - destruct (Z.ltb_spec (Z.sgn n * Z.sgn d) 0); [|done]. nia.
  - f_equal. destruct (Z.eq_dec n 0) as [->|Hne].
    + pose proof (roundPos_ext 0 d 0 1 ltac:(lia) Hd ltac:(lia) ltac:(lia)) as ->.
      reflexivity.
    + rewrite (Z.sgn_pos n), (Z.sgn_pos d) by lia. lia.
Qed.

Lemma nearestDouble_below n1 d1 n2 d2 :
  0 <= n1 -> 0 < d1 -> 0 < d2 -> n1 * d2 <= n2 * d1 ->
  dBelow (nearestDouble n1 d1) (nearestDouble n2 d2).
Proof.
  intros Hn1 Hd1 Hd2 H. assert (0 <= n2) as Hn2 by nia.
  rewrite !nearestDouble_pos by done.
  pose proof (roundPos_mono n1 d1 n2 d2 Hn1 Hd1 Hd2 H).
  pose proof (roundPos_nonneg n1 d1 Hn1 Hd1).
  repeat case_match; simpl; lia.
Qed.

Lemma fdiv_below a a' b :
  0 <= a <= a' -> 0 < b ->
  dBelow (fdiv (ofInt a) (ofInt b)) (fdiv (ofInt a') (ofInt b)).
Proof.
  intros Ha Hb. pose proof ONE_pos. unfold fdiv, ofInt.
  destruct (Z.eqb_spec (b * ONE) 0); [nia|].
  assert (0 < b * ONE) by nia.
  apply nearestDouble_below; try done.
  - repeat apply Z.mul_nonneg_nonneg; lia.
  - repeat (apply Z.mul_le_mono_nonneg_r; [lia|]). lia.
Qed.

Lemma fmul_below x y c :
  dBelow x y -> 0 < c ->
  dBelow (fmul x (Finite c)) (fmul y (Finite c)).
Proof.
  intros Hxy Hc. pose proof ONE_pos.
  destruct x as [n| | |], y as [m| | |]; simpl in Hxy; try done; simpl.
  - apply nearestDouble_below; try lia.
    apply Z.mul_le_mono_nonneg_r; [lia|].
    apply Z.mul_le_mono_nonneg_r; lia.
  - destruct (Z.eqb_spec c 0); [lia|]. destruct (Z.ltb_spec c 0); [lia|].
    rewrite nearestDouble_pos by nia.
    pose proof (roundPos_nonneg (n * c) ONE ltac:(nia) ltac:(lia)).
    case_match; simpl; lia.
  - destruct (Z.eqb_spec c 0); [lia|]. by destruct (Z.ltb_spec c 0); [lia|].
Qed.

Lemma fadd_below x y c :
  dBelow x y -> 0 <= c ->
  dBelow (fadd (Finite c) x) (fadd (Finite c) y).
Proof.
  intros Hxy Hc.
  destruct x as [n| | |], y as [m| | |]; simpl in Hxy; try done; simpl.
  - apply nearestDouble_below; lia.
  - rewrite nearestDouble_pos by lia.
    pose proof (roundPos_nonneg (c + n) 1 ltac:(lia) ltac:(lia)).
    case_match; simpl; lia.
Qed.

Lemma mathRound_below x y : dBelow x y -> jsBelow (mathRound x) (mathRound y).
Proof.
  pose proof ONE_pos.
  destruct x as [n| | |], y as [m| | |]; simpl; try done.
  - intros Hnm. split.
    + apply Z.div_pos; lia.
    + apply Z.div_le_mono; lia.
  - intros Hn. apply Z.div_pos; lia.
Qed.

Lemma mathFloor_below x y : dBelow x y -> jsBelow (mathFloor x) (mathFloor y).
Proof.
  pose proof ONE_pos.
  destruct x as [n| | |], y as [m| | |]; simpl; try done.
  - intros Hnm. split.
    + apply Z.div_pos; lia.
    + apply Z.div_le_mono; lia.
  - intros Hn. apply Z.div_pos; lia.
Qed.

(** At these inputs the operations above give what the Standard
    Library's binary64 operations give; the quotient 23 / 40 is one whose
    double lies below it, so that the percentage is 57 and not 58. *)
Lemma agrees_with_SpecFloat :
  forallb (fun ab : Z * Z =>
             sameDouble (percentBySpecFloat ab.1 ab.2)
               (fmul (fdiv (ofInt ab.1) (ofInt ab.2)) (ofInt 100)))
    [(23, 40); (753664, 1310720); (1, 3); (2, 3); (3, 1); (32768, 70000);
     (65536, 70000); (98304, 70000); (0, 5); (5, 0); (0, 0); (3, -7);
     (-3, 7); (1, 200); (1, 2 ^ 53 - 1); (2 ^ 53 - 1, 1);
     (2 ^ 53 - 1, 2 ^ 53 - 2); (1, 3 * 2 ^ 51); (7, 8)] = true /\
  forallb (fun m =>
             sameDouble (idBySpecFloat m)
               (fadd (ofInt 100000)
                  (fmul (Finite (m * 2 ^ 1021)) (ofInt 900000))))
    [2 * 123183457807755; 2 ^ 53 - 1; 2 ^ 53 - 2; 1; 0; 2 ^ 52;
     12345678901234] = true.
Proof. split; by vm_compute. Qed.

Example roundPercent_rounds_the_double :
  roundPercent 23 40 = Num 57 /\ roundPercent 753664 1310720 = Num 57 /\
  roundPercent 1 200 = Num 1 /\ roundPercent 3 (-7) = Num (-43).
Proof. by vm_compute. Qed.

(** ** Progress *)

Lemma roundPercent_below a a' b :
  0 <= a <= a' -> 0 < b -> jsBelow (roundPercent a b) (roundPercent a' b).
Proof.
  intros Ha Hb. pose proof ONE_pos. unfold roundPercent.
  apply mathRound_below, fmul_below; [|lia]. by apply fdiv_below.
Qed.

Lemma fdiv_same b : 0 < b -> fdiv (ofInt b) (ofInt b) = Finite ONE.
Proof.
  intros Hb. pose proof ONE_pos. unfold fdiv, ofInt.
  destruct (Z.eqb_spec (b * ONE) 0); [nia|].
  rewrite nearestDouble_pos by nia.
  rewrite (roundPos_ext (b * ONE * ONE) (b * ONE) ONE 1) by nia.
  by vm_compute.
Qed.

Lemma roundPercent_zero b : 0 < b -> roundPercent 0 b = Num 0.
Proof.
  intros Hb. pose proof ONE_pos. unfold roundPercent, fdiv, ofInt.
  destruct (Z.eqb_spec (b * ONE) 0); [nia|].
  rewrite nearestDouble_pos by nia.
  rewrite (roundPos_ext (0 * ONE * ONE) (b * ONE) 0 1) by nia.
  by vm_compute.
Qed.

Lemma roundPercent_same b : 0 < b -> roundPercent b b = Num 100.
Proof.
  intros Hb. unfold roundPercent. rewrite fdiv_same by done. by vm_compute.
Qed.

Lemma roundPercent_isPercent a b :
  0 <= a <= b -> 0 < b -> isPercent (roundPercent a b).
Proof.
  intros Ha Hb.
  pose proof (roundPercent_below a b b ltac:(lia) Hb) as H.
  rewrite roundPercent_same in H by done.
  destruct (roundPercent a b); simpl in *; try done; lia.
Qed.

Lemma roundPercent_mono a a' b :
  0 <= a <= a' -> a' <= b -> 0 < b ->
  js_le (roundPercent a b) (roundPercent a' b).
Proof.
  intros Ha Ha' Hb.
  pose proof (roundPercent_below a a' b Ha Hb) as H.
  pose proof (roundPercent_isPercent a' b ltac:(lia) Hb) as H'.
  destruct (roundPercent a b), (roundPercent a' b); simpl in *; try done.
  lia.
Qed.

Lemma min100_isPercent a b :
  0 <= a -> 0 < b -> isPercent (min100 (roundPercent a b)).
Proof.
  intros Ha Hb.
  pose proof (roundPercent_below 0 a b ltac:(lia) Hb) as H.
  rewrite roundPercent_zero in H by done.
  destruct (roundPercent a b); simpl in *; try done; lia.
Qed.

Lemma min100_mono a a' b :
  0 <= a <= a' -> 0 < b ->
  js_le (min100 (roundPercent a b)) (min100 (roundPercent a' b)).
Proof.
  intros Ha Hb.
  pose proof (roundPercent_below a a' b Ha Hb) as H.
  destruct (roundPercent a b), (roundPercent a' b); simpl in *; try done;
    lia.
Qed.

Lemma min100_full a b :
  0 < b -> b <= a -> min100 (roundPercent a b) = Num 100.
Proof.
  intros Hb Ha.
  pose proof (roundPercent_below b a b ltac:(lia) Hb) as H.
  rewrite roundPercent_same in H by done.
  destruct (roundPercent a b); simpl in *; try done. f_equal. lia.
Qed.

Lemma js_le_trans p q r : js_le p q -> js_le q r -> js_le p r.
Proof. destruct p, q, r; simpl; try done. lia. Qed.

Lemma Sorted_map_seq {A} (R : A -> A -> Prop) (g : nat -> A) k : forall a,
  (forall j, R (g j) (g (S j))) -> Sorted R (map g (seq a k)).
Proof.
  induction k as [|k IH]; intros a Hg; simpl; [constructor|].
  constructor; [by apply IH|].
  destruct k; simpl; constructor. apply Hg.
Qed.

Lemma Sorted_snoc {A} (R : A -> A -> Prop) l x :
  Sorted R l -> (forall y, last l = Some y -> R y x) -> Sorted R (l ++ [x]).
Proof.
  induction l as [|a l IH]; intros Hl Hx; simpl.
  - repeat constructor.
  - inversion Hl as [|? ? Hl' Hhd]; subst. constructor.
    + apply IH; [done|]. intros y Hy. apply Hx.
      destruct l; [done|]. by rewrite last_cons_cons.
    + destruct l as [|b l]; simpl; constructor.
      * by apply Hx.
      * by inversion Hhd.
Qed.

Lemma isPercent_le_100 p : isPercent p -> js_le p (Num 100).
Proof. destruct p; simpl; [lia|done..]. Qed.

Lemma isPercent_ge_0 p : isPercent p -> js_le (Num 0) p.
Proof. destruct p; simpl; [lia|done..]. Qed.

Lemma Sorted_percent_snoc l :
  Forall isPercent l -> Sorted js_le l -> Sorted js_le (l ++ [Num 100]).
Proof.
  intros Hall Hl. apply Sorted_snoc; [done|].
  intros y Hy. apply isPercent_le_100.
  rewrite Forall_forall in Hall. apply Hall. by eapply last_Some_elem_of.
Qed.

Lemma Sorted_percent_cons l :
  Forall isPercent l -> Sorted js_le l -> Sorted js_le (Num 0 :: l).
Proof.
  intros Hall Hl. constructor; [done|].
  destruct Hall; constructor. by apply isPercent_ge_0.
Qed.

(** The sender's reports. *)
Lemma reportsBy_ok file k :
  (k <= nchunks file)%nat ->
  Forall isPercent (reportsBy file k) /\ Sorted js_le (reportsBy file k).
Proof.
  intros Hk. pose proof CHUNK_SIZE_pos as HC. unfold reportsBy.
  destruct k as [|k]; [by repeat constructor|].
  assert (0 < file_size file) as HS by (apply nchunks_pos_size; lia).
  split.
  - apply Forall_map, Forall_forall. intros j _.
    apply min100_isPercent; lia.
  - apply Sorted_map_seq. intros j. apply min100_mono; lia.
Qed.

(** The receiver's reports. *)
Lemma runningTotals_ok cs : forall a,
  Forall (fun t => a <= t <= a + byteLength (concat cs)) (runningTotals a cs)
  /\ Sorted Z.le (runningTotals a cs).
Proof.
  unfold byteLength.
  induction cs as [|c cs IH]; intros a; simpl; [by repeat constructor|].
  destruct (IH (a + Z.of_nat (length c))) as [Hall Hs].
  unfold byteLength. rewrite length_app, Nat2Z.inj_add. split.
  - constructor; [lia|].
    eapply Forall_impl; [exact Hall|]. simpl. intros t Ht. lia.
  - constructor; [done|].
    destruct cs; simpl; constructor. unfold byteLength. lia.
Qed.

Lemma chunkReports_ok rx cs :
  (forall meta, incomingMetaRef rx = Some meta ->
     0 < meta_size meta /\
     0 <= receivedSizeRef rx /\
     receivedSizeRef rx + byteLength (concat cs) <= meta_size meta) ->
  Forall isPercent (chunkReports rx cs) /\ Sorted js_le (chunkReports rx cs).
Proof.
  intros Hm. unfold chunkReports.
  destruct (incomingMetaRef rx) as [meta|]; [|by repeat constructor].
  destruct (Hm meta eq_refl) as (Hpos & Ha & Hb).
  destruct (runningTotals_ok cs (receivedSizeRef rx)) as [Hall Hs].
  split.
  - apply Forall_map. eapply Forall_impl; [exact Hall|]. simpl.
    intros t Ht. apply roundPercent_isPercent; lia.
  - induction Hs as [|t l Hs IH Hhd]; simpl; [constructor|].
    inversion Hall as [|? ? Ht Hl]; subst.
    constructor; [by apply IH|].
    destruct Hhd as [|t' l' Htt']; simpl; constructor.
    inversion Hl as [|? ? Ht' _]; subst.
    apply roundPercent_mono; lia.
Qed.

Lemma concat_take_chunksOf_length file k :
  (k <= nchunks file)%nat ->
  byteLength (concat (take k (chunksOf file))) <= file_size file.
Proof.
  intros Hk. rewrite take_chunksOf, concat_chunks_take by done.
  unfold byteLength, file_size. rewrite length_take. lia.
Qed.

Lemma deliver_sentBy file k pc rx :
  progressLog (deliver (sentBy file k pc) rx)
  = progressLog rx ++ receiverReports file k pc rx.
Proof.
  unfold sentBy, receiverReports.
  rewrite (app_comm_cons _ _ file_start), deliver_app.
  change (deliver (file_start :: map file_chunk ?cs) rx)
    with (deliver (map file_chunk cs) (receiverOnData file_start rx)).
  set (rx0 := receiverOnData file_start rx).
  destruct (deliver_chunks (take k (chunksOf file)) rx0) as (_ & _ & Hm & Hl).
  set (rx1 := deliver _ rx0) in *.
  change (incomingMetaRef rx0) with (incomingMetaRef rx) in Hm.
  change (progressLog rx0) with (progressLog rx ++ [Num 0]) in Hl.
  assert (progressLog (deliver (closing pc) rx1)
          = progressLog rx1
            ++ match incomingMetaRef rx with
               | Some _ => map (fun _ => Num 100) (closing pc)
               | None => []
               end) as ->.
  { assert (closing pc = [] \/ closing pc = [file_end]) as [-> | ->]
      by (destruct pc; auto).
    - destruct (incomingMetaRef rx); by rewrite app_nil_r.
    - change (deliver [file_end] rx1) with (receiverOnData file_end rx1).
      destruct (incomingMetaRef rx) as [meta|] eqn:Hmeta.
      + by rewrite (receiverOnData_file_end meta) by congruence.
      + rewrite receiverOnData_file_end_none by congruence.
        by rewrite app_nil_r. }
  rewrite Hl, <- !app_assoc. done.
Qed.

Lemma receiverReports_ok file k pc rx :
  (k <= nchunks file)%nat ->
  (forall meta, incomingMetaRef rx = Some meta ->
     meta_size meta = file_size file) ->
  Forall isPercent (receiverReports file k pc rx) /\
  Sorted js_le (receiverReports file k pc rx).
Proof.
  intros Hk Hsize. unfold receiverReports.
  set (rx0 := receiverOnData file_start rx).
  assert (Forall isPercent (chunkReports rx0 (take k (chunksOf file))) /\
          Sorted js_le (chunkReports rx0 (take k (chunksOf file))))
    as [Hall Hs].
  { destruct k as [|k].
    - unfold chunkReports. simpl.
      destruct (incomingMetaRef rx); by repeat constructor.
    - apply chunkReports_ok. intros meta Hmeta.
      change (incomingMetaRef rx0) with (incomingMetaRef rx) in Hmeta.
      change (receivedSizeRef rx0) with 0.
      rewrite (Hsize meta Hmeta).
      pose proof (concat_take_chunksOf_length file (S k) Hk).
      assert (0 < file_size file) by (apply nchunks_pos_size; lia).
      lia. }
  set (tail := match incomingMetaRef rx with
               | Some _ => map (fun _ => Num 100) (closing pc)
               | None => []
               end).
  assert (tail = [] \/ tail = [Num 100]) as [-> | ->].
  { subst tail. destruct (incomingMetaRef rx); [|by left].
    destruct pc; simpl; auto. }
  - rewrite app_nil_r. split.
    + constructor; [simpl; lia|done].
    + by apply Sorted_percent_cons.
  - split.
    + constructor; [simpl; lia|]. apply Forall_app. split; [done|].
      repeat constructor; simpl; lia.
    + apply Sorted_percent_cons.
      * apply Forall_app. split; [done|]. repeat constructor; simpl; lia.
      * by apply Sorted_percent_snoc.
Qed.

(** C5, amended.  In a transfer whose descriptor carries the size of the
    file that is sent (the sender uploads [file]; the receiver, whose
    descriptor on record has that file's size, takes in the packets the
    sender has sent so far) every progress value reported on either side
    is an integer in [0, 100], and successive reports never decrease.
    This holds however far the upload has got and however it ended; for
    the sender it holds whatever the receiver's descriptor. *)
Theorem progress_bounded_monotone file conn s obs rx :
  connRef s = Some conn ->
  let s' :=
    runUpload (length (uploads s)) obs (startChunkedUpload (Some file) s) in
  let rx' := deliver (newlySent s s') rx in
  (Forall isPercent (newReports s s') /\ Sorted js_le (newReports s s')) /\
  ((forall meta, incomingMetaRef rx = Some meta ->
      meta_size meta = file_size file) ->
   Forall isPercent (newReports rx rx') /\ Sorted js_le (newReports rx rx')).
Proof.
  intros Hc. cbn zeta.
  destruct (runUpload_inv file conn s _ obs _ _ _
              (startChunkedUpload_inv file conn s Hc))
    as (k & pc & _ & [_ _ _ Hk Hs Hl] & _).
  apply newlySent_app in Hs. apply newReports_app in Hl.
  rewrite Hs, Hl. split; [by apply reportsBy_ok|]. intros Hsize.
  rewrite (newReports_app _ _ _ (deliver_sentBy file k pc rx)).
  by apply receiverReports_ok.
Qed.

Lemma progress_bounded_monotone_witness :
  let s' := runUpload (length (uploads offered)) [clear; clear]
              (startChunkedUpload (Some abc_txt) offered) in
  let rx' := deliver (newlySent offered s') accepted_abc in
  (Forall isPercent (newReports offered s') /\
   Sorted js_le (newReports offered s')) /\
  (Forall isPercent (newReports accepted_abc rx') /\
   Sorted js_le (newReports accepted_abc rx')).
Proof.
  destruct (progress_bounded_monotone abc_txt (outgoing 0) offered
              [clear; clear] accepted_abc eq_refl) as [Hsender Hreceiver].
  split; [exact Hsender|]. apply Hreceiver.
  intros meta Hmeta. vm_compute in Hmeta. injection Hmeta as <-.
  reflexivity.
Defined.

(** Counterexample to C5 as the specification states it: the sender
    replaces the offered one-byte file by a three-byte one before it
    starts; the receiver divides by the size it was offered and reports
    300, then 100. *)
Lemma receiver_progress_exceeds_100 :
  let sender := run swapScript initialApp in
  let rx := run (receivedFrom sender) initialApp in
  (meta_size <$> incomingMetaRef rx) = Some 1 /\
  progressLog rx = [Num 0; Num 300; Num 100] /\
  ~ isPercent (Num 300) /\ ~ js_le (Num 300) (Num 100).
Proof.
  cbn zeta. split; [by vm_compute|]. split; [by vm_compute|].
  split; simpl; lia.
Qed.

(** ** Where packets come from *)

Lemma sendsOnly_refl ok s : sendsOnly ok s s.
Proof. exists []. split; [by rewrite app_nil_r|constructor]. Qed.

Lemma sendsOnly_same ok s s' : sent s' = sent s -> sendsOnly ok s s'.
Proof. intros H. exists []. split; [by rewrite app_nil_r|constructor]. Qed.

Lemma sendsOnly_one ok s s' (conn : Conn) p :
  sent s' = sent s ++ [(conn, p)] -> ok p = true -> sendsOnly ok s s'.
Proof. intros H Hp. exists [(conn, p)]. split; [done|]. by repeat constructor. Qed.

Lemma sendsOnly_trans ok s s' s'' :
  sendsOnly ok s s' -> sendsOnly ok s' s'' -> sendsOnly ok s s''.
Proof.
  intros (l & Hs & Hl) (l' & Hs' & Hl'). exists (l ++ l'). split.
  - by rewrite Hs', Hs, app_assoc.
  - by apply Forall_app.
Qed.

Ltac sends :=
  first [ by apply sendsOnly_same
        | by eapply sendsOnly_one; [reflexivity|] ].

Lemma sendsOnly_uploadLoop ok file offset o s s' pc :
  ok file_end = true ->
  uploadLoop file offset o s = (s', pc) -> sendsOnly ok s s'.
Proof.
  intros Hok. unfold uploadLoop. intros H.
  repeat case_match; simplify_eq; sends.
Qed.

Lemma sendsOnly_uploadResumes ok i o s :
  ok file_end = true -> (forall c, ok (file_chunk c) = true) ->
  sendsOnly ok s (uploadResumes i o s).
Proof.
  intros Hend Hchunk. unfold uploadResumes.
  destruct (uploads s !! i) as [u|]; [|apply sendsOnly_refl].
  destruct (resumeUpload u o s) as [s' pc] eqn:Hr.
  apply (sendsOnly_trans ok s s'); [|by apply sendsOnly_same].
  unfold resumeUpload in Hr.
  destruct (up_pc u) as [|offset|offset chunk| | |];
    try (simplify_eq; apply sendsOnly_refl).
  - eapply sendsOnly_trans; [|by eapply sendsOnly_uploadLoop].
    by apply sendsOnly_same.
  - by eapply sendsOnly_uploadLoop.
  - destruct (connRef s) as [conn|]; [|simplify_eq; apply sendsOnly_refl].
    eapply sendsOnly_trans; [|by eapply sendsOnly_uploadLoop].
    by eapply sendsOnly_one; [reflexivity|].
Qed.

(** Each event makes the component send only the packets it can cause. *)
Lemma sendsOnly_step s e : sendsOnly (causes e) s (step s e).
Proof.
  apply (sendsOnly_trans _ s (handle e s)); [|by apply sendsOnly_same].
  destruct e; simpl handle; unfold guarded;
    try (by apply sendsOnly_uploadResumes);
    repeat match goal with b : bool |- _ => destruct b end;
    unfold enterApp, goHome, connectToPeer, processFile, requestSend,
      senderOnData, startChunkedUpload, acceptTransfer, rejectTransfer, reset,
      peerOnOpen, peerOnError, handleIncomingConnection, senderOnOpen,
      receiverOnData, senderOnClose, receiverOnClose, senderOnError,
      receiverOnError, heartbeatFires, timeoutFires, handlersOf;
    repeat case_match; simplify_eq; sends.
Qed.

Lemma sent_run_has_cause events : forall s cp,
  cp ∈ sent (run events s) ->
  cp ∈ sent s \/ exists e, e ∈ events /\ causes e cp.2 = true.
Proof.
  induction events as [|e events IH]; intros s cp Hin; [by left|].
  change (run (e :: events) s) with (run events (step s e)) in Hin.
  destruct (IH _ _ Hin) as [Hstep | (e' & He' & Hc)].
  - destruct (sendsOnly_step s e) as (packets & Hs & Hall).
    rewrite Hs in Hstep. apply elem_of_app in Hstep as [Hold | Hnew].
    + by left.
    + right. exists e. split; [apply list_elem_of_here|].
      rewrite Forall_forall in Hall. by apply Hall.
  - right. exists e'. split; [by apply list_elem_of_further|done].
Qed.

(** ** Consent *)

Lemma hasChunk_app l l' : hasChunk (l ++ l') = (hasChunk l || hasChunk l')%bool.
Proof. apply existsb_app. Qed.

Lemma stateAt_S events k e :
  events !! k = Some e -> stateAt events (S k) = step (stateAt events k) e.
Proof.
  intros He. unfold stateAt, run.
  by rewrite (take_S_r _ _ _ He), fold_left_app.
Qed.

Lemma stateAt_all events : stateAt events (length events) = run events initialApp.
Proof. unfold stateAt. by rewrite firstn_all. Qed.

(** Which event sent the [n]-th packet. *)
Lemma sent_origin events k : forall n cp,
  (k <= length events)%nat ->
  sent (stateAt events k) !! n = Some cp ->
  exists j e,
    (j < k)%nat /\ events !! j = Some e /\
    (length (sent (stateAt events j)) <= n
     < length (sent (stateAt events (S j))))%nat /\
    causes e cp.2 = true.
Proof.
  induction k as [|k IH]; intros n cp Hk Hn; [done|].
  destruct (lookup_lt_is_Some_2 events k ltac:(lia)) as [e He].
  rewrite (stateAt_S _ _ _ He) in Hn.
  destruct (sendsOnly_step (stateAt events k) e) as (packets & Hs & Hall).
  destruct (decide (n < length (sent (stateAt events k)))%nat) as [Hlt|Hge].
  - rewrite Hs, lookup_app_l in Hn by done.
    destruct (IH n cp ltac:(lia) Hn) as (j & e' & Hj & He' & Hb & Hc).
    exists j, e'. repeat split; try done; lia.
  - exists k, e. rewrite (stateAt_S _ _ _ He).
    split; [lia|]. split; [done|]. split.
    + apply lookup_lt_Some in Hn. lia.
    + rewrite Hs, lookup_app_r in Hn by lia.
      rewrite Forall_forall in Hall.
      by eapply Hall, list_elem_of_lookup_2.
Qed.

Lemma resumeUpload_uploads u o s s' pc :
  resumeUpload u o s = (s', pc) -> uploads s' = uploads s.
Proof.
  unfold resumeUpload, uploadLoop. intros H.
  repeat case_match; by simplify_eq.
Qed.

(** An event leaves the number of uploads alone unless it is an [approve]
    on a dialled connection or a press of FORCE START while the button
    is shown; then it adds at most one. *)
Lemma step_uploads s e :
  length (uploads (step s e)) = length (uploads s) \/
  startsUpload s e = true /\
  length (uploads (step s e)) = S (length (uploads s)).
Proof.
  unfold step, syncIncomingMetaRef.
  change (uploads (withIncomingMetaRef ?m ?t)) with (uploads t).
  destruct e; simpl handle; unfold guarded;
    try (left; unfold uploadResumes;
         destruct (uploads s !! i) as [u|]; [|done];
         destruct (resumeUpload u o s) as [s' pc] eqn:Hr;
         simpl; rewrite length_insert;
         by rewrite (resumeUpload_uploads _ _ _ _ _ Hr));
    repeat match goal with b : bool |- _ => destruct b end;
    unfold enterApp, goHome, connectToPeer, processFile, requestSend,
      senderOnData, startChunkedUpload, acceptTransfer, rejectTransfer, reset,
      peerOnOpen, peerOnError, handleIncomingConnection, senderOnOpen,
      receiverOnData, senderOnClose, receiverOnClose, senderOnError,
      receiverOnError, heartbeatFires, timeoutFires, handlersOf;
    simpl startsUpload;
    repeat case_match; simplify_eq; simpl;
    rewrite ?length_insert, ?length_app; simpl;
    try (by left);
    try (right; split; [done || by apply bool_decide_eq_true_2|lia]).
Qed.

(** Which event started the [i]-th upload. *)
Lemma upload_origin events k : forall i,
  (k <= length events)%nat ->
  (i < length (uploads (stateAt events k)))%nat ->
  exists j e,
    (j < k)%nat /\ events !! j = Some e /\
    startsUpload (stateAt events j) e = true /\
    length (uploads (stateAt events j)) = i /\
    length (uploads (stateAt events (S j))) = S i.
Proof.
  induction k as [|k IH]; intros i Hk Hi; [simpl in Hi; lia|].
  destruct (lookup_lt_is_Some_2 events k ltac:(lia)) as [e He].
  rewrite (stateAt_S _ _ _ He) in Hi.
  destruct (decide (i < length (uploads (stateAt events k)))%nat) as [Hlt|Hge].
  - destruct (IH i ltac:(lia) Hlt) as (j & e' & Hj & H).
    exists j, e'. split; [lia|done].
  - destruct (step_uploads (stateAt events k) e) as [Hsame|[Hstart Hlen]];
      [lia|].
    exists k, e. rewrite (stateAt_S _ _ _ He).
    repeat split; try done; lia.
Qed.

Lemma startsUpload_spec s e :
  startsUpload s e = true ->
  (exists m cl, e = ConnData (outgoing m) approve /\ dialed s !! m = Some cl) \/
  (e = ClickForceStart /\ status s = WAITING_APPROVAL /\
   is_Some (selectedFile s)).
Proof.
  destruct e as [| | | | | | | | | | | | | | | | |[m|m] []| | | | |];
    simpl; try discriminate.
  - intros H. right. unfold forceStartButton, status_in in H.
    apply andb_prop in H as [H Hst]. apply andb_prop in H as [_ Hfile].
    split; [done|]. split.
    + destruct (status s); simpl in Hst; congruence.
    + by apply bool_decide_eq_true_1 in Hfile.
  - intros H. left. apply bool_decide_eq_true_1 in H as [cl Hcl]. eauto.
Qed.

(** C2, amended.  In every session, whatever the events and their order,
    every chunk is sent by the resumption of an upload, and that upload
    was started by an earlier event of the session which is either an
    [approve] received on a connection the sender dialled or a press of
    FORCE START while the status is WAITING_APPROVAL and a file is
    selected: if the [n]-th packet sent is a chunk, it was sent by an
    event [UploadResumes i], and an earlier event of one of these two
    kinds created the upload [i]. *)
Theorem every_chunk_follows_approve_or_force_start events n conn chunk :
  sent (run events initialApp) !! n = Some (conn, file_chunk chunk) ->
  exists j k e i o,
    (j < k)%nat /\
    events !! j = Some e /\
    ((exists m cl,
        e = ConnData (outgoing m) approve /\
        dialed (stateAt events j) !! m = Some cl) \/
     (e = ClickForceStart /\
      status (stateAt events j) = WAITING_APPROVAL /\
      is_Some (selectedFile (stateAt events j)))) /\
    length (uploads (stateAt events j)) = i /\
    length (uploads (stateAt events (S j))) = S i /\
    events !! k = Some (UploadResumes i o) /\
    (length (sent (stateAt events k)) <= n
     < length (sent (stateAt events (S k))))%nat.
Proof.
  intros Hn. rewrite <- stateAt_all in Hn.
  destruct (sent_origin events (length events) n _ (le_n _) Hn)
    as (k & e & Hk & He & Hb & Hc).
  assert (exists i o, e = UploadResumes i o) as (i & o & ->).
  { destruct e; simpl in Hc; repeat case_match; try discriminate; eauto. }
  assert (i < length (uploads (stateAt events k)))%nat as Hi.
  { apply lookup_lt_is_Some.
    destruct (uploads (stateAt events k) !! i) eqn:Hu; [done|].
    rewrite (stateAt_S _ _ _ He) in Hb. unfold step in Hb. simpl in Hb.
    unfold uploadResumes in Hb. rewrite Hu in Hb. simpl in Hb. lia. }
  destruct (upload_origin events k i ltac:(lia) Hi)
    as (j & e & Hj & He' & Hstart & Hlen & Hlen').
  exists j, k, e, i, o. repeat split; try done; try lia.
  by apply startsUpload_spec.
Qed.

Lemma every_chunk_follows_approve_or_force_start_witness :
  exists j k e i o,
    (j < k)%nat /\
    forceStartScript !! j = Some e /\
    ((exists m cl,
        e = ConnData (outgoing m) approve /\
        dialed (stateAt forceStartScript j) !! m = Some cl) \/
     (e = ClickForceStart /\
      status (stateAt forceStartScript j) = WAITING_APPROVAL /\
      is_Some (selectedFile (stateAt forceStartScript j)))) /\
    length (uploads (stateAt forceStartScript j)) = i /\
    length (uploads (stateAt forceStartScript (S j))) = S i /\
    forceStartScript !! k = Some (UploadResumes i o) /\
    (length (sent (stateAt forceStartScript k)) <= 2
     < length (sent (stateAt forceStartScript (S k))))%nat.
Proof.
  apply (every_chunk_follows_approve_or_force_start forceStartScript 2
           (outgoing 0) abc).
  by vm_compute.
Defined.

(** Counterexample to C2 as the specification states it.  FORCE START
    sends the chunks of a file although no [approve] has arrived; and an
    [approve] that answers no offer starts an upload all the same: the
    sender that has selected a file, lost its connection and dialled
    again sends the chunks on [approve] although it has never sent a
    [file-meta]. *)
Lemma chunk_sent_without_approve :
  (hasChunk (sent (run forceStartScript initialApp)) = true /\
   existsb isApprove forceStartScript = false /\
   Forall (fun e => forall conn, e <> ConnData conn approve) forceStartScript)
  /\
  (sent (run unsolicitedApproveScript initialApp)
   = [(outgoing 1, file_start); (outgoing 1, file_chunk abc);
      (outgoing 1, file_end)] /\
   Forall (fun e => e <> ClickSend /\ e <> ClickForceStart)
     unsolicitedApproveScript).
Proof.
  split.
  - split; [by vm_compute|]. split; [by vm_compute|].
    repeat constructor; discriminate.
  - split; [by vm_compute|]. repeat constructor; discriminate.
Qed.

(** ** The end of a reception *)

(** C3, amended.  On [file-end] a receiver with a descriptor on record
    becomes COMPLETED, assembles the buffered chunks in order under the
    descriptor's media type and exposes the result, with progress 100;
    the descriptor's size and the number of bytes received play no part,
    nor does the phase. *)
Theorem file_end_completes meta rx :
  incomingMetaRef rx = Some meta ->
  let rx' := receiverOnData file_end rx in
  status rx' = COMPLETED /\
  receivedFileUrl rx'
  = Some (newBlob (receivedChunksRef rx) (meta_type meta)) /\
  progress rx' = Num 100 /\
  receivedChunksRef rx' = receivedChunksRef rx /\
  receivedSizeRef rx' = receivedSizeRef rx.
Proof.
  intros Hm. cbn zeta. by rewrite (receiverOnData_file_end meta).
Qed.

Lemma file_end_completes_witness :
  status (receiverOnData file_end accepted_abc) = COMPLETED.
Proof.
  apply (file_end_completes (mkMeta "abc.txt" 3 "text/plain") accepted_abc).
  reflexivity.
Defined.

(** Counterexample to C3 as the specification states it: three bytes
    have arrived for a descriptor of ten, and [file-end] still completes
    the session and exposes the three bytes. *)
Lemma file_end_ignores_descriptor_size :
  let rx := run shortScript initialApp in
  (meta_size <$> incomingMetaRef rx) = Some 10 /\
  receivedSizeRef rx = 3 /\
  status rx = COMPLETED /\
  (blob_bytes <$> receivedFileUrl rx) = Some abc.
Proof. repeat split. Qed.

(** C4, amended.  [file-end] with no descriptor on record changes
    nothing: no artifact is produced and the phase stays what it was. *)
Theorem file_end_without_descriptor_ignored rx :
  incomingMetaRef rx = None -> receiverOnData file_end rx = rx.
Proof. apply receiverOnData_file_end_none. Qed.

Lemma file_end_without_descriptor_witness :
  receiverOnData file_end (run (removelast unofferedScript) initialApp)
  = run (removelast unofferedScript) initialApp.
Proof. apply file_end_without_descriptor_ignored. reflexivity. Defined.

(** Counterexample to C4 as the specification states it: [file-end]
    arrives with no descriptor on record and the session is not FAILED. *)
Lemma file_end_without_descriptor_not_failed :
  let rx := run unofferedScript initialApp in
  incomingMetaRef (run (removelast unofferedScript) initialApp) = None /\
  status rx = TRANSFERRING /\ status rx <> FAILED.
Proof. repeat split. discriminate. Qed.

(** ** Reset *)

(** [reset] never touches the receive buffer or its byte count. *)
Lemma reset_leaves_refs confirmed s :
  receivedChunksRef (reset confirmed s) = receivedChunksRef s /\
  receivedSizeRef (reset confirmed s) = receivedSizeRef s.
Proof. by destruct confirmed. Qed.

(** C6, where the code falls short of it.  After a complete reception of
    three bytes, "Start New Transfer" leaves the phase IDLE, no
    descriptor, no artifact and progress 0, but the chunk is still in
    [receivedChunksRef] and [receivedSizeRef] is still 3. *)
Theorem reset_keeps_receive_buffer :
  let before := run (removelast receiveThenResetScript) initialApp in
  let after := run receiveThenResetScript initialApp in
  status before = COMPLETED /\
  status after = IDLE /\
  incomingMeta after = None /\ incomingMetaRef after = None /\
  receivedFileUrl after = None /\ progress after = Num 0 /\
  receivedChunksRef after = [mkBlob abc ""] /\
  receivedSizeRef after = 3.
Proof. repeat split. Qed.

(** ** The connect timeout *)

(** With no connection in [connRef] the connect timeout does nothing,
    whatever the channel looks like. *)
Lemma connect_timeout_without_connRef open s :
  connRef s = None -> timeoutFires ConnectTimeout open s = s.
Proof. intros Hc. unfold timeoutFires. by rewrite Hc. Qed.

(** C7, where the code falls short of it.  On a first connect attempt
    [connRef] is still empty when the 10000 ms timer runs out, the test
    [connRef.current?.open === false] is false, and the session stays
    CONNECTING with no cause reported. *)
Theorem connect_timeout_misses_first_attempt :
  let before := run (removelast dialTimeoutScript) initialApp in
  let after := run dialTimeoutScript initialApp in
  status before = CONNECTING /\
  timeouts before = [ConnectTimeout] /\ delay ConnectTimeout = 10000 /\
  connRef before = None /\
  status after = CONNECTING /\
  statusMessage after = "Connecting...".
Proof. repeat split. Qed.

(** ** Decline *)

Lemma uploadResumes_atRest i o s :
  Forall (fun u => ended u = true) (uploads s) -> uploadResumes i o s = s.
Proof.
  intros Hall. destruct (uploads s !! i) as [[file pc]|] eqn:Hu.
  - apply (uploadResumes_ended i o s file pc Hu).
    rewrite Forall_forall in Hall.
    specialize (Hall _ (list_elem_of_lookup_2 _ _ _ Hu)).
    destruct pc; auto; discriminate Hall.
  - unfold uploadResumes. by rewrite Hu.
Qed.

Lemma forceStartButton_atRest s :
  status s <> WAITING_APPROVAL -> forceStartButton s = false.
Proof.
  intros Hst. unfold forceStartButton, status_in.
  destruct (status s); simpl; rewrite ?andb_false_r; congruence.
Qed.

Lemma no_chunk_caused e packets :
  Forall (fun cp : Conn * DataPacket => causes e cp.2 = true) packets ->
  (forall i o, e <> UploadResumes i o) ->
  hasChunk packets = false.
Proof.
  intros Hall He. induction Hall as [|[conn p] l Hp _ IH]; [done|].
  simpl. rewrite IH, orb_false_r. simpl in Hp.
  destruct p; try done.
  destruct e; simpl in Hp; repeat case_match; try discriminate.
  exfalso. eapply He. reflexivity.
Qed.

(** With no offer pending and no upload under way, an event that does
    not reopen the exchange sends no chunk and leaves things so. *)
Lemma step_atRest s e :
  reopens e = false -> atRest s ->
  exists packets,
    sent (step s e) = sent s ++ packets /\ hasChunk packets = false /\
    atRest (step s e).
Proof.
  intros He [Hst Hup].
  assert ((exists i o, e = UploadResumes i o) \/
          ~ (exists i o, e = UploadResumes i o)) as [(i & o & ->)|Hno].
  { destruct e; try (right; by intros (? & ? & ?)). left. eauto. }
  - exists []. unfold step. simpl handle.
    rewrite (uploadResumes_atRest i o s Hup), app_nil_r. by repeat split.
  - destruct (sendsOnly_step s e) as (packets & Hs & Hall).
    exists packets. split; [done|]. split.
    { apply (no_chunk_caused e); [done|]. intros i o ->. apply Hno. eauto. }
    unfold atRest, step, syncIncomingMetaRef.
    change (status (withIncomingMetaRef ?m ?t)) with (status t).
    change (uploads (withIncomingMetaRef ?m ?t)) with (uploads t).
    pose proof (forceStartButton_atRest s Hst) as Hforce.
    destruct e; try (destruct conn; destruct packet); try discriminate He;
      try (exfalso; apply Hno; by eauto);
      simpl handle; unfold guarded; rewrite ?Hforce;
      repeat match goal with b : bool |- _ => destruct b end;
      unfold enterApp, goHome, connectToPeer, processFile, requestSend,
        senderOnData, startChunkedUpload, acceptTransfer, rejectTransfer,
        reset, peerOnOpen, peerOnError, handleIncomingConnection,
        senderOnOpen, receiverOnData, senderOnClose, receiverOnClose,
        senderOnError, receiverOnError, heartbeatFires, timeoutFires,
        handlersOf;
      repeat case_match; simplify_eq; by split.
Qed.

Lemma run_atRest later : forall s,
  Forall (fun e => reopens e = false) later -> atRest s ->
  exists packets,
    sent (run later s) = sent s ++ packets /\ hasChunk packets = false /\
    atRest (run later s).
Proof.
  induction later as [|e later IH]; intros s Hl Hs.
  - exists []. by rewrite app_nil_r.
  - inversion Hl as [|? ? He Hl']; subst.
    destruct (step_atRest s e He Hs) as (p1 & Hs1 & Hp1 & Hrest).
    destruct (IH (step s e) Hl' Hrest) as (p2 & Hs2 & Hp2 & Hrest').
    exists (p1 ++ p2). change (run (e :: later) s) with (run later (step s e)).
    rewrite Hs2, Hs1, app_assoc, hasChunk_app, Hp1, Hp2. done.
Qed.

(** C8, amended.  The receiver that declines while it holds its
    connection sends [reject], drops its descriptor and becomes IDLE;
    without a connection Decline does nothing.  The sender that receives
    [reject] becomes FAILED with "Receiver rejected." and sets a timer of
    2000 ms; when the timer fires it becomes CONNECTED.  It keeps its
    selected file (it never stored a descriptor), and neither step sends
    a packet or starts an upload.  If no upload is under way when the
    [reject] arrives on a dialled connection, no chunk is sent from then
    on, whatever happens, until the sender presses SEND again, receives
    an [approve] from a peer it dialled, or is offered a file itself. *)
Theorem reject_both_sides rx cl s open n later :
  let rx' := rejectTransfer rx in
  let s1 := senderOnData cl reject s in
  let s2 := timeoutFires RejectRevert open s1 in
  match connRef rx with
  | Some conn =>
      sent rx' = sent rx ++ [(conn, reject)] /\
      incomingMeta rx' = None /\
      incomingMetaRef (syncIncomingMetaRef rx') = None /\
      status rx' = IDLE
  | None => rx' = rx
  end /\
  (status s1 = FAILED /\ statusMessage s1 = "Receiver rejected." /\
   timeouts s1 = timeouts s ++ [RejectRevert] /\ delay RejectRevert = 2000 /\
   status s2 = CONNECTED /\
   selectedFile s2 = selectedFile s /\
   sent s2 = sent s /\ uploads s2 = uploads s) /\
  (dialed s !! n = Some cl ->
   Forall (fun u => ended u = true) (uploads s) ->
   Forall (fun e => reopens e = false) later ->
   let s1' := step s (ConnData (outgoing n) reject) in
   status s1' = FAILED /\
   exists packets,
     sent (run later s1') = sent s ++ packets /\ hasChunk packets = false).
Proof.
  cbn zeta. split; [|split].
  - unfold rejectTransfer. by destruct (connRef rx).
  - by repeat split.
  - intros Hcl Hup Hlater.
    assert (step s (ConnData (outgoing n) reject)
            = syncIncomingMetaRef (senderOnData cl reject s)) as ->.
    { unfold step. simpl handle. unfold handlersOf. by rewrite Hcl. }
    split; [done|].
    destruct (run_atRest later (syncIncomingMetaRef (senderOnData cl reject s))
                Hlater) as (packets & Hs & Hp & _); [by split|].
    by exists packets.
Qed.

Lemma reject_both_sides_witness :
  (status (rejectTransfer accepted_abc) = IDLE /\
   status (senderOnData (mkClosure IDLE None) reject offered) = FAILED) /\
  exists packets,
    sent (run afterRejectScript (step offered (ConnData (outgoing 0) reject)))
    = sent offered ++ packets /\ hasChunk packets = false.
Proof.
  destruct (reject_both_sides accepted_abc (mkClosure IDLE None) offered true
              0%nat afterRejectScript)
    as (Hrx & Hs & Hlater).
  split.
  - split; [apply Hrx|apply Hs].
  - apply Hlater; [reflexivity|constructor|].
    repeat constructor.
Defined.

(** Counterexample to C8 as the specification states it.  On [reject]
    the sender in WAITING_APPROVAL is FAILED, not CONNECTED, and its file
    is still selected.  And a [reject] does not stop an upload that FORCE
    START has begun: the chunk of the offered file goes out after the
    [reject] has been handled. *)
Lemma reject_leaves_sender_failed :
  (let s := run rejectedScript initialApp in
   status offered = WAITING_APPROVAL /\
   status s = FAILED /\ status s <> CONNECTED /\
   selectedFile s = Some abc_txt /\
   hasChunk (sent s) = false) /\
  (let handled := stateAt rejectAfterForceStartScript 9 in
   rejectAfterForceStartScript !! 8%nat = Some (ConnData (outgoing 0) reject) /\
   status handled = FAILED /\
   hasChunk (sent handled) = false /\
   newlySent handled (run rejectAfterForceStartScript initialApp)
   = [file_chunk abc; file_end]).
Proof.
  split; [by repeat split|]. by vm_compute.
Qed.

(** ** Heartbeat *)

(** C9, amended.  There is one timer, of period 2000 ms.  The sender
    starts it on a connection it dialled when that connection opens, the
    receiver starts it on an incoming connection as soon as the
    connection is announced, and starting it replaces any earlier timer.
    Each time it fires, a [heartbeat] goes out on its connection if the
    connection is open at that moment, and nothing is sent otherwise, in
    any state; so every [heartbeat] a session has sent was sent by a
    firing that found the connection open.  The timer is cleared when a
    connection closes (either role) and when the page is left; once
    cleared, firing sends nothing.  An error on the connection leaves it
    running. *)
Theorem heartbeat_checks_open_when_firing conn cl s open n events conn' :
  let s1 := startHeartbeat conn s in
  heartbeatRef s1 = Some (mkInterval conn 2000) /\
  sent (heartbeatFires true s1) = sent s ++ [(conn, heartbeat)] /\
  (forall s0, heartbeatFires false s0 = s0) /\
  heartbeatRef (receiverOnClose s1) = None /\
  heartbeatRef (senderOnClose cl s1) = None /\
  heartbeatRef (goHome (withView app s1)) = None /\
  sent (heartbeatFires open (stopHeartbeat s1)) = sent s /\
  (heartbeatRef (senderOnOpen conn s) = Some (mkInterval conn 2000) /\
   heartbeatRef (handleIncomingConnection n s)
   = Some (mkInterval (incoming n) 2000)) /\
  ((dialed s !! n = Some cl ->
    heartbeatRef (step s (ConnOpen (outgoing n)))
    = Some (mkInterval (outgoing n) 2000)) /\
   (peerRef s = true ->
    heartbeatRef (step s (PeerConnection n))
    = Some (mkInterval (incoming n) 2000))) /\
  (heartbeatRef (receiverOnError s1) = heartbeatRef s1 /\
   heartbeatRef (senderOnError s1) = heartbeatRef s1) /\
  ((conn', heartbeat) ∈ sent (run events initialApp) ->
   HeartbeatFires true ∈ events).
Proof.
  cbn zeta. repeat split.
  - intros s0. unfold heartbeatFires. by case_match.
  - unfold senderOnClose. by case_match.
  - intros Hcl. unfold step. simpl handle. unfold handlersOf.
    by rewrite Hcl.
  - intros Hpeer. unfold step. simpl handle. unfold guarded.
    by rewrite Hpeer.
  - intros Hin.
    destruct (sent_run_has_cause events initialApp _ Hin)
      as [Hinit | (e & He & Hc)]; [by apply elem_of_nil in Hinit|].
    destruct e; simpl in Hc; repeat case_match; try discriminate.
    done.
Qed.

Lemma heartbeat_checks_open_when_firing_witness :
  heartbeatRef (step (run (take 4 offerScript) initialApp)
                  (ConnOpen (outgoing 0)))
  = Some (mkInterval (outgoing 0) 2000) /\
  heartbeatRef (step (run [EnterApp; PeerOpen] initialApp) (PeerConnection 0))
  = Some (mkInterval (incoming 0) 2000) /\
  HeartbeatFires true ∈ takeoverScript.
Proof.
  destruct (heartbeat_checks_open_when_firing (outgoing 0)
              (mkClosure IDLE None) (run (take 4 offerScript) initialApp)
              true 0%nat takeoverScript (incoming 1))
    as (_ & _ & _ & _ & _ & _ & _ & _ & [Hopen _] & _ & _).
  destruct (heartbeat_checks_open_when_firing (outgoing 0)
              (mkClosure IDLE None) (run [EnterApp; PeerOpen] initialApp)
              true 0%nat takeoverScript (incoming 1))
    as (_ & _ & _ & _ & _ & _ & _ & _ & [_ Hconn] & _ & Hsent).
  split; [by apply Hopen|]. split; [by apply Hconn|].
  apply Hsent. vm_compute. apply list_elem_of_here.
Defined.

(** Counterexample to C9 as the specification states it: an error on the
    connection leaves the timer running, and it goes on sending while the
    connection is open.  Nor does every open connection get heartbeats:
    there is one timer, and a second connection takes it over. *)
Lemma heartbeat_survives_error :
  let s := run (removelast errorScript) initialApp in
  (status s = FAILED /\
   heartbeatRef s = Some (mkInterval (incoming 0) 2000) /\
   sent (run errorScript initialApp) = [(incoming 0, heartbeat)]) /\
  sent (run takeoverScript initialApp)
  = [(incoming 1, heartbeat); (incoming 1, heartbeat)].
Proof. repeat split. Qed.

(** ** The empty file *)

Lemma uploadLoop_end file conn offset o s :
  connRef s = Some conn -> file_size file <= offset ->
  uploadLoop file offset o s
  = (withStatusMessage "Sent Successfully!"
       (withStatus COMPLETED (conn_send conn file_end s)), Finished).
Proof.
  intros Hc Hoff. unfold uploadLoop. rewrite Hc.
  by destruct (Z.ltb_spec offset (file_size file)); [lia|].
Qed.

(** C10.  For a file of size 0 the sender's [file-start] is followed
    directly by [file-end]: the first resumption after the pause goes
    from the loop test to the end, whatever the channel looks like, with
    no chunk, no progress report (the division is in the loop body, which
    is not entered) and status COMPLETED.  The receiver with a descriptor
    on record assembles an artifact of no bytes and is COMPLETED. *)
Theorem empty_file_transfer file conn s o meta rx :
  connRef s = Some conn ->
  file_size file = 0 ->
  incomingMetaRef rx = Some meta ->
  let i := length (uploads s) in
  let s1 := startChunkedUpload (Some file) s in
  let s' := uploadResumes i o s1 in
  let rx' := deliver (newlySent s s') rx in
  (sent s1 = sent s ++ [(conn, file_start)] /\
   sent s' = sent s ++ [(conn, file_start); (conn, file_end)] /\
   progressLog s' = progressLog s /\
   status s' = COMPLETED /\
   uploads s' !! i = Some (mkUpload file Finished)) /\
  (status rx' = COMPLETED /\
   receivedFileUrl rx' = Some (mkBlob [] (meta_type meta)) /\
   blob_size (mkBlob [] (meta_type meta)) = 0).
Proof.
  intros Hc Hsize Hm. cbn zeta.
  set (s1 := startChunkedUpload (Some file) s).
  assert (s1 = withUploads (uploads s ++ [mkUpload file AwaitPause])
                 (conn_send conn file_start
                    (withStatusMessage "Starting transfer..."
                       (withStatus TRANSFERRING s)))) as Hs1
    by (subst s1; unfold startChunkedUpload; by rewrite Hc).
  assert (uploads s1 !! length (uploads s)
          = Some (mkUpload file AwaitPause)) as Ht
    by (rewrite Hs1; simpl; by rewrite lookup_app_r, Nat.sub_diag).
  assert (connRef (withStatusMessage "Sending file..." s1) = Some conn) as Hc1
    by (by rewrite Hs1).
  unfold uploadResumes. rewrite Ht. unfold resumeUpload. simpl up_pc.
  simpl up_file. rewrite (uploadLoop_end file conn 0 o _ Hc1) by lia.
  set (s' := withUploads _ _).
  assert (sent s' = sent s ++ map (pair conn) [file_start; file_end]) as Hs'
    by (subst s'; rewrite Hs1; simpl; by rewrite <- app_assoc).
  rewrite (newlySent_app _ _ _ _ Hs'). split.
  - split; [by rewrite Hs1|]. split; [done|].
    split; [by subst s'; rewrite Hs1|]. split; [done|].
    subst s'. rewrite Hs1. simpl.
    apply list_lookup_insert_eq. rewrite length_app. simpl. lia.
  - destruct (deliver_transfer [] meta rx Hm) as (_ & Hu & Hst). done.
Qed.

Lemma empty_file_transfer_witness :
  let s' := uploadResumes (length (uploads offered)) clear
              (startChunkedUpload (Some empty_bin) offered) in
  status s' = COMPLETED /\
  status (deliver (newlySent offered s') accepted_empty) = COMPLETED.
Proof.
  destruct (empty_file_transfer empty_bin (outgoing 0) offered clear
              (mkMeta "empty.bin" 0 "application/octet-stream")
              accepted_empty eq_refl eq_refl eq_refl)
    as [(_ & _ & _ & Hs & _) (Hrx & _)].
  split; [exact Hs|exact Hrx].
Defined.

(** * More of the component *)

(** ** The upload loop beyond a complete run *)

(** X1.  However the channel behaves, what an upload has sent at any point
    is [file-start], then the first [k] chunks of the file in order, then
    [file-end] if and only if it has finished, in which case [k] is the
    number of chunks; it has reported progress once per chunk.
    Backpressure and loss of the connection delay or stop the upload but
    never reorder or skip a chunk. *)
Theorem upload_sends_chunks_in_order file conn s obs :
  connRef s = Some conn ->
  let i := length (uploads s) in
  let s' := runUpload i obs (startChunkedUpload (Some file) s) in
  exists k pc,
    uploads s' !! i = Some (mkUpload file pc) /\
    (k <= nchunks file)%nat /\
    (pc = Finished -> k = nchunks file) /\
    sent s'
    = sent s
      ++ map (pair conn)
           (file_start :: map file_chunk (take k (chunksOf file))
            ++ closing pc) /\
    length (newReports s s') = k.
Proof.
  intros Hc. cbn zeta.
  destruct (runUpload_inv file conn s _ obs _ _ _
              (startChunkedUpload_inv file conn s Hc))
    as (k & pc & _ & [_ Ht Hpc Hk Hs Hl] & _).
  exists k, pc. split; [done|]. split; [done|]. split.
  - intros ->. exact Hpc.
  - split; [exact Hs|].
    rewrite (newReports_app _ _ _ Hl). unfold reportsBy.
    by rewrite length_map, length_seq.
Qed.

Lemma upload_sends_chunks_in_order_witness :
  exists k pc,
    uploads (runUpload (length (uploads offered)) [clear]
               (startChunkedUpload (Some abc_txt) offered))
      !! length (uploads offered) = Some (mkUpload abc_txt pc) /\
    (k <= nchunks abc_txt)%nat.
Proof.
  destruct (upload_sends_chunks_in_order abc_txt (outgoing 0) offered [clear]
              eq_refl) as (k & pc & Ht & Hk & _).
  exists k, pc. split; [exact Ht|exact Hk].
Defined.

(** X2.  Every chunk the loop cuts has at least one byte and at most
    [CHUNK_SIZE]; it is the rest of the file if that is shorter than a
    window, so every chunk but the last has exactly [CHUNK_SIZE] bytes. *)
Theorem chunk_sizes file k :
  (k < nchunks file)%nat ->
  byteLength (chunkAt file k)
  = Z.min CHUNK_SIZE (file_size file - Z.of_nat k * CHUNK_SIZE) /\
  1 <= byteLength (chunkAt file k) <= CHUNK_SIZE /\
  ((S k < nchunks file)%nat -> byteLength (chunkAt file k) = CHUNK_SIZE).
Proof.
  intros Hk. pose proof CHUNK_SIZE_pos as HC.
  pose proof (proj2 (loop_test file k) Hk) as Hlt.
  assert (byteLength (chunkAt file k)
          = Z.min CHUNK_SIZE (file_size file - Z.of_nat k * CHUNK_SIZE)) as Hlen.
  { rewrite chunkAt_take. unfold byteLength, file_size in *.
    rewrite length_take, length_drop. lia. }
  split; [exact Hlen|]. split; [lia|].
  intros Hnext. apply loop_test in Hnext. lia.
Qed.

Lemma chunk_sizes_witness :
  byteLength (chunkAt abc_txt 0)
  = Z.min CHUNK_SIZE (file_size abc_txt - Z.of_nat 0 * CHUNK_SIZE).
Proof.
  apply (chunk_sizes abc_txt 0). vm_compute. lia.
Defined.

Lemma runUpload_ended i obs s file pc :
  uploads s !! i = Some (mkUpload file pc) ->
  pc = Finished \/ pc = Lost \/ pc = Threw ->
  runUpload i obs s = s.
Proof.
  intros Ht Hpc. induction obs as [|o obs IH]; [done|].
  change (runUpload i (o :: obs) s) with (runUpload i obs (uploadResumes i o s)).
  by rewrite (uploadResumes_ended i o s file pc).
Qed.

(** X3.  When an upload comes back to the head of an iteration with bytes
    left to send and finds the connection closed, it sets FAILED with
    "Connection lost during transfer", sends nothing, and is over: no
    later resumption sends anything, [file-end] included, or changes the
    state. *)
Theorem upload_stops_on_closed_connection file conn i pc offset o s :
  uploads s !! i = Some (mkUpload file pc) ->
  connRef s = Some conn ->
  parkedAt pc offset ->
  offset < file_size file ->
  obs_open o = false ->
  let s' := uploadResumes i o s in
  status s' = FAILED /\
  statusMessage s' = "Connection lost during transfer" /\
  sent s' = sent s /\
  uploads s' !! i = Some (mkUpload file Lost) /\
  forall obs, runUpload i obs s' = s'.
Proof.
  intros Ht Hc Hpc Hoff Ho. cbn zeta.
  assert (i < length (uploads s))%nat as Hi by (by eapply lookup_lt_Some).
  assert (forall t, connRef t = Some conn -> uploads t = uploads s ->
            uploadLoop file offset o t
            = (withStatusMessage "Connection lost during transfer"
                 (withStatus FAILED t), Lost)) as Hloop.
  { intros t Hct _. unfold uploadLoop. rewrite Hct, Ho.
    by destruct (Z.ltb_spec offset (file_size file)); [|lia]. }
  assert (uploads (uploadResumes i o s) !! i = Some (mkUpload file Lost) /\
          status (uploadResumes i o s) = FAILED /\
          statusMessage (uploadResumes i o s)
          = "Connection lost during transfer" /\
          sent (uploadResumes i o s) = sent s) as (Ht' & Hst & Hmsg & Hs).
  { unfold uploadResumes. rewrite Ht. unfold resumeUpload.
    simpl up_pc. simpl up_file.
    destruct pc; simpl in Hpc; try done; subst offset.
    - rewrite Hloop by done. simpl.
      by rewrite list_lookup_insert_eq.
    - rewrite Hloop by done. simpl.
      by rewrite list_lookup_insert_eq. }
  repeat split; try done.
  intros obs. apply (runUpload_ended i obs _ file Lost); auto.
Qed.

Lemma upload_stops_on_closed_connection_witness :
  status (uploadResumes 0 (mkObs false None)
            (startChunkedUpload (Some abc_txt) offered)) = FAILED.
Proof.
  apply (upload_stops_on_closed_connection abc_txt (outgoing 0) 0 AwaitPause 0
           (mkObs false None) (startChunkedUpload (Some abc_txt) offered)).
  - reflexivity.
  - reflexivity.
  - reflexivity.
  - vm_compute. reflexivity.
  - reflexivity.
Defined.

(** X4.  The connection is looked at only at the head of an iteration.
    Once the last chunk has been read, the upload sends it and then
    [file-end] and sets COMPLETED without looking at the connection at
    all, open or not. *)
Theorem last_chunk_sent_unchecked file conn i offset chunk o s :
  uploads s !! i = Some (mkUpload file (AwaitBuffer offset chunk)) ->
  connRef s = Some conn ->
  file_size file <= offset + CHUNK_SIZE ->
  let s' := uploadResumes i o s in
  sent s' = sent s ++ [(conn, file_chunk chunk); (conn, file_end)] /\
  status s' = COMPLETED /\
  statusMessage s' = "Sent Successfully!" /\
  uploads s' !! i = Some (mkUpload file Finished).
Proof.
  intros Ht Hc Hoff. cbn zeta.
  assert (i < length (uploads s))%nat as Hi by (by eapply lookup_lt_Some).
  unfold uploadResumes. rewrite Ht. unfold resumeUpload.
  simpl up_pc. simpl up_file. rewrite Hc.
  rewrite (uploadLoop_end file conn) by done. simpl.
  rewrite <- app_assoc. repeat split; try done.
  by rewrite list_lookup_insert_eq.
Qed.

Lemma last_chunk_sent_unchecked_witness :
  status
    (uploadResumes 0 (mkObs false None)
       (uploadResumes 0 clear (startChunkedUpload (Some abc_txt) offered)))
  = COMPLETED.
Proof.
  apply (last_chunk_sent_unchecked abc_txt (outgoing 0) 0 0 abc
           (mkObs false None)
           (uploadResumes 0 clear (startChunkedUpload (Some abc_txt) offered))).
  - vm_compute. reflexivity.
  - reflexivity.
  - vm_compute. discriminate.
Defined.

Lemma uploadResumes_congested file conn i pc o s :
  uploads s !! i = Some (mkUpload file pc) ->
  connRef s = Some conn ->
  parkedAt pc 0 -> 0 < file_size file -> congested o ->
  let s' := uploadResumes i o s in
  uploads s' !! i = Some (mkUpload file (AwaitDrain 0)) /\
  connRef s' = Some conn /\
  sent s' = sent s /\ progressLog s' = progressLog s /\ status s' = status s.
Proof.
  intros Ht Hc Hpc Hsize [Ho Hb]. cbn zeta.
  assert (i < length (uploads s))%nat as Hi by (by eapply lookup_lt_Some).
  assert (forall t, connRef t = Some conn ->
            uploadLoop file 0 o t = (t, AwaitDrain 0)) as Hloop.
  { intros t Hct. unfold uploadLoop. rewrite Hct, Ho, Hb.
    by destruct (Z.ltb_spec 0 (file_size file)); [|lia]. }
  unfold uploadResumes. rewrite Ht. unfold resumeUpload.
  simpl up_pc. simpl up_file.
  destruct pc; simpl in Hpc; try done; subst;
    rewrite Hloop by done; simpl; by rewrite list_lookup_insert_eq.
Qed.

(** X5.  The backpressure wait has no limit.  As long as every look at the
    connection finds it open with more than [MAX_BUFFER_AMOUNT] bytes
    buffered, an upload of a non-empty file stays parked before its first
    chunk: it has sent [file-start] and nothing else, reported no
    progress, and the status stays TRANSFERRING, however often it
    resumes. *)
Theorem upload_waits_while_congested file conn s o obs :
  connRef s = Some conn ->
  0 < file_size file ->
  Forall congested (o :: obs) ->
  let i := length (uploads s) in
  let s' := runUpload i (o :: obs) (startChunkedUpload (Some file) s) in
  uploads s' !! i = Some (mkUpload file (AwaitDrain 0)) /\
  newlySent s s' = [file_start] /\
  newReports s s' = [] /\
  status s' = TRANSFERRING.
Proof.
  intros Hc Hsize Hall. cbn zeta.
  set (i := length (uploads s)). set (s1 := startChunkedUpload (Some file) s).
  assert (uploads s1 !! i = Some (mkUpload file AwaitPause) /\
          connRef s1 = Some conn /\
          sent s1 = sent s ++ map (pair conn) [file_start] /\
          progressLog s1 = progressLog s ++ [] /\
          status s1 = TRANSFERRING) as Hstart.
  { subst s1 i. unfold startChunkedUpload. rewrite Hc. simpl.
    by rewrite lookup_app_r, Nat.sub_diag, app_nil_r. }
  assert (forall pc t,
            parkedAt pc 0 ->
            uploads t !! i = Some (mkUpload file pc) /\
            connRef t = Some conn /\
            sent t = sent s ++ map (pair conn) [file_start] /\
            progressLog t = progressLog s ++ [] /\
            status t = TRANSFERRING ->
            forall l, Forall congested l -> l <> [] ->
            uploads (runUpload i l t) !! i = Some (mkUpload file (AwaitDrain 0)) /\
            sent (runUpload i l t) = sent s ++ map (pair conn) [file_start] /\
            progressLog (runUpload i l t) = progressLog s ++ [] /\
            status (runUpload i l t) = TRANSFERRING) as Hrun.
  { intros pc t Hpc Ht l. revert pc t Hpc Ht.
    induction l as [|o' l IH]; intros pc t Hpc (Ht & Hct & Hs & Hl & Hst) Hl' Hne;
      [done|].
    inversion Hl' as [|? ? Ho' Hrest]; subst.
    destruct (uploadResumes_congested file conn i pc o' t Ht Hct Hpc Hsize Ho')
      as (Ht1 & Hc1 & Hs1 & Hl1 & Hst1).
    change (runUpload i (o' :: l) t) with (runUpload i l (uploadResumes i o' t)).
    destruct l as [|o'' l].
    - simpl. rewrite Hs1, Hl1, Hst1. done.
    - apply (IH (AwaitDrain 0)); try done.
      rewrite Hs1, Hl1, Hst1. done. }
  destruct (Hrun AwaitPause s1 eq_refl Hstart (o :: obs) Hall)
    as (Ht & Hs & Hl & Hst); [done|].
  split; [done|]. split; [by apply (newlySent_app _ _ conn)|].
  split; [by apply newReports_app|done].
Qed.

Lemma upload_waits_while_congested_witness :
  newlySent offered
    (runUpload (length (uploads offered))
       [mkObs true (Some 2000000); mkObs true (Some 2000000)]
       (startChunkedUpload (Some abc_txt) offered))
  = [file_start].
Proof.
  apply (upload_waits_while_congested abc_txt (outgoing 0) offered
           (mkObs true (Some 2000000)) [mkObs true (Some 2000000)]).
  - reflexivity.
  - vm_compute. reflexivity.
  - repeat constructor.
Defined.

Lemma nchunks_covers file :
  file_size file <= Z.of_nat (nchunks file) * CHUNK_SIZE.
Proof.
  destruct (Z.le_gt_cases (file_size file)
              (Z.of_nat (nchunks file) * CHUNK_SIZE)) as [|Hlt]; [done|].
  apply loop_test in Hlt. lia.
Qed.

(** X6.  An upload of a non-empty file that has finished has 100 as its
    last progress report, although its offset has then run past the end of
    the file whenever the size is not a multiple of [CHUNK_SIZE]. *)
Theorem finished_upload_reports_100 file conn s obs :
  connRef s = Some conn ->
  0 < file_size file ->
  let i := length (uploads s) in
  let s' := runUpload i obs (startChunkedUpload (Some file) s) in
  finished i file s' ->
  last (newReports s s') = Some (Num 100).
Proof.
  intros Hc Hsize. cbn zeta. unfold finished. intros Hfin.
  destruct (runUpload_inv file conn s _ obs _ _ _
              (startChunkedUpload_inv file conn s Hc))
    as (k & pc & _ & [_ Ht Hpc Hk _ Hl] & _).
  rewrite Ht in Hfin. injection Hfin as ->. simpl in Hpc. subst k.
  rewrite (newReports_app _ _ _ Hl).
  pose proof (nchunks_covers file) as Hcov. pose proof CHUNK_SIZE_pos as HC.
  destruct (nchunks file) as [|n] eqn:Hn; [simpl in Hcov; lia|].
  unfold reportsBy. rewrite seq_S, map_app.
  change (map (reportAfter file) [(0 + n)%nat]) with [reportAfter file n].
  rewrite last_snoc. unfold reportAfter. by rewrite min100_full by lia.
Qed.

Lemma finished_upload_reports_100_witness :
  last (newReports offered
          (runUpload (length (uploads offered)) [clear; clear]
             (startChunkedUpload (Some abc_txt) offered)))
  = Some (Num 100).
Proof.
  apply (finished_upload_reports_100 abc_txt (outgoing 0) offered
           [clear; clear]).
  - reflexivity.
  - vm_compute. reflexivity.
  - vm_compute. reflexivity.
Defined.

(** ** The receiver beyond one clean transfer *)

(** X7.  Packets the receiver's handler has no branch for ([heartbeat],
    which the sender's timer interleaves with the chunks, and [handshake],
    [approve], [file-whole]) leave the receiver exactly as it was:
    whatever the stream, taking it in gives the same state as taking it
    in with those packets removed. *)
Theorem receiver_unmoved_by_heartbeats packets : forall rx,
  deliver packets rx
  = deliver (filter (fun p => negb (ignoredByReceiver p)) packets) rx.
Proof.
  induction packets as [|p packets IH]; intros rx; [done|].
  change (deliver (p :: packets) rx)
    with (deliver packets (receiverOnData p rx)).
  destruct p; simpl filter; simpl negb; try (rewrite IH; reflexivity);
    apply IH.
Qed.

(** X8.  [file-start] makes the receiver forget every chunk it holds:
    whatever came before, after [file-start] and the chunks [cs] the buffer
    holds exactly [cs] and the count is their length, so the artifact
    built on [file-end] is made of [cs] alone. *)
Theorem file_start_forgets_earlier_chunks before cs rx :
  let rx' := deliver (before ++ file_start :: map file_chunk cs) rx in
  receivedChunksRef rx' = map (fun c => mkBlob c "") cs /\
  receivedSizeRef rx' = byteLength (concat cs) /\
  status rx' = TRANSFERRING /\
  forall meta, incomingMetaRef rx' = Some meta ->
    receivedFileUrl (receiverOnData file_end rx')
    = Some (mkBlob (concat cs) (meta_type meta)).
Proof.
  cbn zeta. rewrite deliver_app.
  set (rx0 := deliver before rx).
  change (deliver (file_start :: map file_chunk cs) rx0)
    with (deliver (map file_chunk cs) (receiverOnData file_start rx0)).
  destruct (deliver_chunks cs (receiverOnData file_start rx0))
    as (Hb & Hn & Hm & _).
  change (receivedChunksRef (receiverOnData file_start rx0))
    with (@nil Blob) in Hb.
  change (receivedSizeRef (receiverOnData file_start rx0)) with 0 in Hn.
  rewrite app_nil_l in Hb. rewrite Z.add_0_l in Hn.
  assert (forall l r, status (deliver (map file_chunk l) r) = status r) as Hst.
  { induction l as [|c l IH]; intros r; [done|].
    change (deliver (map file_chunk (c :: l)) r)
      with (deliver (map file_chunk l) (receiverOnData (file_chunk c) r)).
    rewrite IH. unfold receiverOnData. simpl. by case_match. }
  split; [done|]. split; [done|]. split; [by rewrite Hst|].
  intros meta Hmeta. rewrite (receiverOnData_file_end meta) by done.
  change (receivedFileUrl _)
    with (Some (newBlob (receivedChunksRef
                           (deliver (map file_chunk cs)
                              (receiverOnData file_start rx0)))
                  (meta_type meta))).
  by rewrite Hb, newBlob_chunks.
Qed.

Lemma file_start_forgets_earlier_chunks_witness :
  receivedFileUrl
    (receiverOnData file_end
       (deliver ([file_chunk [Byte.x78]]
                 ++ file_start :: map file_chunk [abc]) accepted_abc))
  = Some (mkBlob abc "text/plain").
Proof.
  exact (proj2 (proj2 (proj2
           (file_start_forgets_earlier_chunks [file_chunk [Byte.x78]] [abc]
              accepted_abc)))
           (mkMeta "abc.txt" 3 "text/plain") eq_refl).
Defined.

(** ** Every packet has a cause *)

(** X9.  Every packet the component has sent was caused by an event of
    the session: [file-meta] by a press of SEND, [file-start] by FORCE
    START or an [approve] received on a dialled connection, [file-chunk]
    and [file-end] by an upload resuming, [approve] by Accept or Retry
    pressed while the connection is open, [reject] by Decline, and
    [heartbeat] by the timer firing on an open connection. *)
Theorem sent_packets_have_causes events conn p :
  (conn, p) ∈ sent (run events initialApp) ->
  exists e, e ∈ events /\ causes e p = true.
Proof.
  intros Hin. destruct (sent_run_has_cause events initialApp _ Hin)
    as [Hinit | H]; [|done].
  by apply elem_of_nil in Hinit.
Qed.

Lemma sent_packets_have_causes_witness :
  exists e, e ∈ forceStartScript /\ causes e (file_chunk abc) = true.
Proof.
  apply (sent_packets_have_causes forceStartScript (outgoing 0)).
  vm_compute. do 2 apply list_elem_of_further. apply list_elem_of_here.
Defined.

(** X10.  The packet kinds [handshake] and [file-whole], which the
    [DataPacket] type declares, are never sent, whatever the events. *)
Theorem never_sends_handshake_or_file_whole events conn :
  ((conn, handshake) ∉ sent (run events initialApp)) /\
  ((conn, file_whole) ∉ sent (run events initialApp)).
Proof.
  split; intros Hin;
    destruct (sent_run_has_cause events initialApp _ Hin)
      as [Hinit | (e & _ & Hc)];
    try (by apply elem_of_nil in Hinit);
    by destruct e as [| | | | | | | | |[]|[]| | | | | | |[] []| | |[]| |].
Qed.


(** ** Invariants of a session *)

Lemma uploadLoop_buffer file offset o s s' pc :
  uploadLoop file offset o s = (s', pc) ->
  receivedChunksRef s' = receivedChunksRef s /\
  receivedSizeRef s' = receivedSizeRef s.
Proof. unfold uploadLoop. intros H. repeat case_match; by simplify_eq. Qed.

Lemma uploadResumes_buffer i o s :
  receivedChunksRef (uploadResumes i o s) = receivedChunksRef s /\
  receivedSizeRef (uploadResumes i o s) = receivedSizeRef s.
Proof.
  unfold uploadResumes. destruct (uploads s !! i) as [u|]; [|done].
  destruct (resumeUpload u o s) as [s' pc] eqn:Hr. simpl.
  unfold resumeUpload in Hr.
  repeat case_match; simplify_eq; try done;
    by match goal with
       | H : uploadLoop _ _ _ _ = _ |- _ => apply uploadLoop_buffer in H
       end.
Qed.

Lemma bufferedBytes_snoc chunks c :
  bufferedBytes (chunks ++ [mkBlob c ""]) = bufferedBytes chunks + byteLength c.
Proof.
  unfold bufferedBytes, byteLength.
  rewrite map_app, concat_app, length_app. simpl. rewrite app_nil_r. lia.
Qed.

Lemma step_bufferCounted s e : bufferCounted s -> bufferCounted (step s e).
Proof.
  unfold bufferCounted, step, syncIncomingMetaRef. intros Hs.
  change (receivedSizeRef (withIncomingMetaRef ?m ?t))
    with (receivedSizeRef t).
  change (receivedChunksRef (withIncomingMetaRef ?m ?t))
    with (receivedChunksRef t).
  destruct e; simpl handle; unfold guarded;
    try (destruct (uploadResumes_buffer i o s) as [-> ->]; exact Hs);
    unfold enterApp, goHome, connectToPeer, processFile, requestSend,
      senderOnData, startChunkedUpload, acceptTransfer, rejectTransfer, reset,
      peerOnOpen, peerOnError, handleIncomingConnection, senderOnOpen,
      receiverOnData, senderOnClose, receiverOnClose, senderOnError,
      receiverOnError, heartbeatFires, timeoutFires, handlersOf;
    repeat case_match; simplify_eq; simpl; try done;
    rewrite bufferedBytes_snoc; by rewrite Hs.
Qed.

(** X11.  In every state a session can reach, the receiver's byte count
    is the number of bytes in its buffer of chunks: the two are advanced
    together by each chunk and cleared together by [file-start] and by a
    new incoming connection, and nothing else writes either. *)
Theorem byte_count_matches_buffer events :
  bufferCounted (run events initialApp).
Proof.
  assert (forall s, bufferCounted s -> bufferCounted (run events s)) as H.
  { induction events as [|e events IH]; intros s Hs; [done|].
    apply IH. by apply step_bufferCounted. }
  by apply H.
Qed.

Lemma length_substring_le m : forall n str,
  (String.length (String.substring n m str) <= m)%nat.
Proof.
  induction m as [|m IHm]; intros n str.
  - induction n as [|n IHn] in str |- *; destruct str; simpl; try lia.
    apply IHn.
  - induction n as [|n IHn] in str |- *; destruct str; simpl; try lia.
    + specialize (IHm 0%nat str). lia.
    + apply IHn.
Qed.

(** X12.  The target id never has more than six characters, since the
    field keeps the first six of what is typed; Connect is offered only
    when it has exactly six. *)
Theorem target_id_at_most_six events :
  let s := run events initialApp in
  (String.length (targetId s) <= 6)%nat /\
  (connectButton s = true -> String.length (targetId s) = 6%nat).
Proof.
  cbn zeta. split.
  - assert (forall s, (String.length (targetId s) <= 6)%nat ->
              (String.length (targetId (run events s)) <= 6)%nat) as H.
    { induction events as [|e events IH]; intros s Hs; [done|].
      apply IH. unfold step, syncIncomingMetaRef.
      change (targetId (withIncomingMetaRef ?m ?t)) with (targetId t).
      destruct e; simpl handle; unfold guarded;
        try (unfold uploadResumes, resumeUpload, uploadLoop);
        unfold enterApp, goHome, connectToPeer, processFile, requestSend,
          senderOnData, startChunkedUpload, acceptTransfer, rejectTransfer,
          reset, peerOnOpen, peerOnError, handleIncomingConnection,
          senderOnOpen, receiverOnData, senderOnClose, receiverOnClose,
          senderOnError, receiverOnError, heartbeatFires, timeoutFires,
          handlersOf;
        repeat case_match; simplify_eq; simpl; try done.
      apply length_substring_le. }
    apply H. simpl. lia.
  - unfold connectButton. intros H.
    apply andb_true_iff in H as [_ H]. by apply Nat.eqb_eq in H.
Qed.

Lemma target_id_at_most_six_witness :
  String.length
    (targetId (run [EnterApp; PeerOpen; TypeTargetId "1234567"] initialApp))
  = 6%nat.
Proof.
  apply (target_id_at_most_six [EnterApp; PeerOpen; TypeTargetId "1234567"]).
  reflexivity.
Defined.

Lemma uploadResumes_dialed i o s : dialed (uploadResumes i o s) = dialed s.
Proof.
  unfold uploadResumes, resumeUpload, uploadLoop.
  repeat case_match; by simplify_eq.
Qed.

Lemma step_dialedFromRest s e : dialedFromRest s -> dialedFromRest (step s e).
Proof.
  unfold dialedFromRest, step, syncIncomingMetaRef. intros Hs.
  change (dialed (withIncomingMetaRef ?m ?t)) with (dialed t).
  destruct e; simpl handle; unfold guarded;
    try (by rewrite uploadResumes_dialed);
    unfold enterApp, goHome, processFile, requestSend,
      senderOnData, startChunkedUpload, acceptTransfer, rejectTransfer, reset,
      peerOnOpen, peerOnError, handleIncomingConnection, senderOnOpen,
      receiverOnData, senderOnClose, receiverOnClose, senderOnError,
      receiverOnError, heartbeatFires, timeoutFires, handlersOf;
    try (repeat case_match; simplify_eq; by simpl).
  (* ClickConnect: the button is shown in IDLE and FAILED only *)
  destruct (connectButton s) eqn:Hb; [|done].
  unfold connectToPeer. case_match; [done|]. simpl.
  apply Forall_app. split; [done|]. constructor; [|constructor].
  simpl. unfold connectButton, connectPanel, status_in in Hb.
  destruct (status s); auto; simpl in Hb;
    rewrite andb_false_r in Hb; discriminate Hb.
Qed.

Lemma run_dialedFromRest events : dialedFromRest (run events initialApp).
Proof.
  assert (forall s, dialedFromRest s -> dialedFromRest (run events s)) as H.
  { induction events as [|e events IH]; intros s Hs; [done|].
    apply IH. by apply step_dialedFromRest. }
  apply H. constructor.
Qed.

(** X13.  The sender's close handler tests the status of the render that
    dialled, and Connect is offered in IDLE and FAILED only.  So in every
    session, when a dialled connection closes, the heartbeat stops and the
    status becomes IDLE with "Connection closed.", whatever the status
    was, COMPLETED included. *)
Theorem dialled_connection_close_resets events n :
  let s := run events initialApp in
  (n < length (dialed s))%nat ->
  let s' := step s (ConnClose (outgoing n)) in
  status s' = IDLE /\
  statusMessage s' = "Connection closed." /\
  heartbeatRef s' = None.
Proof.
  cbn zeta. intros Hn.
  destruct (lookup_lt_is_Some_2 _ _ Hn) as [cl Hcl].
  pose proof (run_dialedFromRest events) as Hall.
  unfold dialedFromRest in Hall. rewrite Forall_forall in Hall.
  specialize (Hall cl (list_elem_of_lookup_2 _ _ _ Hcl)).
  unfold step. simpl handle. rewrite Hcl. unfold senderOnClose.
  by destruct Hall as [-> | ->].
Qed.

Lemma dialled_connection_close_resets_witness :
  status (step (run forceStartScript initialApp) (ConnClose (outgoing 0)))
  = IDLE.
Proof.
  apply (dialled_connection_close_resets forceStartScript 0).
  vm_compute. lia.
Defined.

(** X14.  FORCE START pressed twice in a row starts at most one upload:
    the first press that starts one sets TRANSFERRING, which takes the
    button away; a press that starts none leaves everything as it was. *)
Theorem force_start_twice s :
  uploads (run [ClickForceStart; ClickForceStart] s)
  = uploads (run [ClickForceStart] s) /\
  sent (run [ClickForceStart; ClickForceStart] s)
  = sent (run [ClickForceStart] s).
Proof.
  change (run [ClickForceStart; ClickForceStart] s)
    with (step (step s ClickForceStart) ClickForceStart).
  change (run [ClickForceStart] s) with (step s ClickForceStart).
  assert (forall t, forceStartButton t = false \/ connRef t = None ->
            uploads (step t ClickForceStart) = uploads t /\
            sent (step t ClickForceStart) = sent t) as Hidle.
  { intros t Ht. unfold step, syncIncomingMetaRef. simpl handle.
    change (uploads (withIncomingMetaRef ?m ?u)) with (uploads u).
    change (sent (withIncomingMetaRef ?m ?u)) with (sent u).
    unfold guarded. destruct Ht as [-> | Hc]; [done|].
    destruct (forceStartButton t); [|done].
    unfold startChunkedUpload. by rewrite Hc. }
  apply Hidle. unfold step at 1 2, syncIncomingMetaRef. simpl handle.
  unfold guarded. destruct (forceStartButton s) eqn:Hb.
  - unfold startChunkedUpload.
    destruct (connRef s) as [conn|] eqn:Hc; [|by right].
    destruct (selectedFile s) as [file|] eqn:Hf.
    + left. unfold forceStartButton, filePanel, status_in. simpl.
      by rewrite !andb_false_r.
    + unfold forceStartButton in Hb. rewrite Hf in Hb. simpl in Hb.
      by rewrite andb_false_r in Hb.
  - left. exact Hb.
Qed.

(** ** The offer *)

(** X15.  SEND with a connection and a file sends one [file-meta] whose
    descriptor is the file's name, byte length and media type; a receiver
    that takes it in records exactly that descriptor (in the state and,
    after the render, in the ref the handlers read), shows WAITING_APPROVAL,
    and answers nothing by itself. *)
Theorem offer_reaches_receiver conn file s rx :
  connRef s = Some conn ->
  selectedFile s = Some file ->
  let s' := requestSend s in
  let rx' := syncIncomingMetaRef (deliver (newlySent s s') rx) in
  let meta := mkMeta (file_name file) (file_size file) (file_type file) in
  (sent s' = sent s ++ [(conn, file_meta meta)] /\
   status s' = WAITING_APPROVAL) /\
  (incomingMeta rx' = Some meta /\ incomingMetaRef rx' = Some meta /\
   status rx' = WAITING_APPROVAL /\
   sent rx' = sent rx /\
   receivedChunksRef rx' = receivedChunksRef rx).
Proof.
  intros Hc Hf. cbn zeta.
  assert (sent (requestSend s)
          = sent s ++ map (pair conn)
              [file_meta (mkMeta (file_name file) (file_size file)
                            (file_type file))]) as Hs
    by (unfold requestSend; by rewrite Hc, Hf).
  rewrite (newlySent_app _ _ _ _ Hs). split; [|done].
  split; [exact Hs|]. unfold requestSend. by rewrite Hc, Hf.
Qed.

Lemma offer_reaches_receiver_witness :
  incomingMetaRef
    (syncIncomingMetaRef
       (deliver (newlySent (run (removelast offerScript) initialApp)
                   (requestSend (run (removelast offerScript) initialApp)))
          initialApp))
  = Some (mkMeta "abc.txt" 3 "text/plain").
Proof.
  apply (offer_reaches_receiver (outgoing 0) abc_txt
           (run (removelast offerScript) initialApp) initialApp);
    reflexivity.
Defined.

(** ** Leaving the page *)

Lemma uploadResumes_receivedFileUrl i o s :
  receivedFileUrl (uploadResumes i o s) = receivedFileUrl s.
Proof.
  unfold uploadResumes, resumeUpload, uploadLoop.
  repeat case_match; by simplify_eq.
Qed.

(** X16.  A received file stays in place, and the page keeps asking before
    it is closed, until the user confirms "Start New Transfer": no other
    event takes the artifact away (a later [file-end] can only replace
    it).  After a confirmed reset the page no longer asks. *)
Theorem received_file_kept_until_reset s e :
  (is_Some (receivedFileUrl s) -> e <> ClickReset true ->
   is_Some (receivedFileUrl (step s e)) /\
   handleBeforeUnload (step s e) = true) /\
  (resetButton s = true ->
   receivedFileUrl (step s (ClickReset true)) = None /\
   handleBeforeUnload (step s (ClickReset true)) = false).
Proof.
  split.
  - intros Hurl He.
    assert (is_Some (receivedFileUrl (step s e))) as Hkept.
    { unfold step, syncIncomingMetaRef.
      change (receivedFileUrl (withIncomingMetaRef ?m ?t))
        with (receivedFileUrl t).
      destruct e; simpl handle; unfold guarded;
        try (by rewrite uploadResumes_receivedFileUrl);
        repeat match goal with b : bool |- _ => destruct b end;
        unfold enterApp, goHome, connectToPeer, processFile, requestSend,
          senderOnData, startChunkedUpload, acceptTransfer, rejectTransfer,
          reset, peerOnOpen, peerOnError, handleIncomingConnection,
          senderOnOpen, receiverOnData, senderOnClose, receiverOnClose,
          senderOnError, receiverOnError, heartbeatFires, timeoutFires,
          handlersOf;
        repeat case_match; simplify_eq; simpl; by eauto. }
    split; [done|]. unfold handleBeforeUnload.
    by rewrite (bool_decide_eq_true_2 _ Hkept), orb_true_r.
  - intros Hb. unfold step, syncIncomingMetaRef. simpl handle.
    unfold guarded. rewrite Hb. done.
Qed.

Lemma received_file_kept_until_reset_witness :
  is_Some (receivedFileUrl (step (run shortScript initialApp) GoHome)) /\
  handleBeforeUnload (step (run shortScript initialApp) GoHome) = true.
Proof.
  apply (received_file_kept_until_reset (run shortScript initialApp) GoHome);
    [vm_compute; eexists; reflexivity | discriminate].
Defined.

(** ** Session ids *)

(** The greatest double below 1 is 1 - 2^-53. *)
Lemma double_below_one n :
  isDouble (Finite n) -> 0 <= n < ONE -> n <= ONE - 2 ^ 1021.
Proof.
  intros [_ Hgrid] Hn. rewrite Z.abs_eq in Hgrid by lia.
  assert (ONE = 2 ^ 53 * 2 ^ 1021) as HONE by (by vm_compute).
  assert (2 ^ 1073 = 2 ^ 52 * 2 ^ 1021) as Hhalf by (by vm_compute).
  assert (2 ^ Z.succ 1073 = ONE) as Hsucc by (by vm_compute).
  assert (0 < 2 ^ 1021) as HP by (by vm_compute).
  destruct (Z.lt_ge_cases n (2 ^ 1073)) as [Hlt|Hge].
  - rewrite Hhalf in Hlt. rewrite HONE.
    set (P := 2 ^ 1021) in *. lia.
  - assert (Z.log2 n = 1073) as Hlog
      by (apply Z.log2_unique; [lia|]; rewrite Hsucc; lia).
    unfold spacingExp in Hgrid. rewrite Hlog in Hgrid.
    change (Z.max 0 (1073 - 52)) with 1021 in Hgrid.
    apply Z.div_exact in Hgrid; [|lia].
    rewrite HONE in *. set (P := 2 ^ 1021) in *.
    set (k := n / P) in *. nia.
Qed.

Lemma length_decimalOnto (k : nat) : forall fuel n acc,
  10 ^ Z.of_nat k <= n < 10 ^ (Z.of_nat k + 1) ->
  (k < fuel)%nat ->
  String.length (decimalOnto fuel n acc) = (k + 1 + String.length acc)%nat.
Proof.
  induction k as [|k IH]; intros fuel n acc Hn Hfuel;
    (destruct fuel as [|fuel]; [lia|]); simpl decimalOnto.
  - change (10 ^ Z.of_nat 0) with 1 in Hn.
    change (10 ^ (Z.of_nat 0 + 1)) with 10 in Hn.
    destruct (Z.ltb_spec n 10); [done|lia].
  - rewrite Nat2Z.inj_succ, <- Z.add_1_r in Hn.
    rewrite !Z.pow_add_r in Hn by lia. change (10 ^ 1) with 10 in Hn.
    assert (0 < 10 ^ Z.of_nat k) by (apply Z.pow_pos_nonneg; lia).
    destruct (Z.ltb_spec n 10); [nia|].
    rewrite IH; [simpl; lia| |lia].
    rewrite Z.pow_add_r by lia. change (10 ^ 1) with 10. split.
    + apply Z.div_le_lower_bound; lia.
    + apply Z.div_lt_upper_bound; lia.
Qed.

(** X17.  Whatever double in [0, 1) [Math.random()] returns,
    [generateId] returns the decimal form of an integer between 100000
    and 999999, a string of exactly six characters: the product and the
    sum are rounded, but neither rounding reaches 1000000. *)
Theorem generateId_six_digits r :
  isDouble r -> unitInterval r ->
  exists id,
    generateIdNumber r = Num id /\
    100000 <= id <= 999999 /\
    String.length (generateId r) = 6%nat.
Proof.
  intros Hr Hunit. destruct r as [n| | |]; try done. simpl in Hunit.
  pose proof (double_below_one n Hr Hunit) as Hmax.
  assert (jsBelow (Num 100000) (generateIdNumber (Finite n)) /\
          jsBelow (generateIdNumber (Finite n)) (Num 999999)) as [Hlo Hhi].
  { unfold generateIdNumber.
    assert (mathFloor (fadd (ofInt 100000) (fmul (Finite 0) (ofInt 900000)))
            = Num 100000) as <- by (by vm_compute).
    assert (mathFloor (fadd (ofInt 100000)
                         (fmul (Finite (ONE - 2 ^ 1021)) (ofInt 900000)))
            = Num 999999) as <- by (by vm_compute).
    assert (0 < 900000 * ONE) by (by vm_compute).
    assert (0 <= 100000 * ONE) by (by vm_compute).
    split; apply mathFloor_below; unfold ofInt;
      (apply fadd_below; [|lia]); (apply fmul_below; [|lia]); simpl; lia. }
  unfold generateId.
  destruct (generateIdNumber (Finite n)) as [id| | |]; try done.
  simpl in Hlo, Hhi. exists id. split; [done|]. split; [lia|].
  unfold jsToString. destruct (Z.ltb_spec id 0); [lia|]. unfold toString.
  rewrite (length_decimalOnto 5).
  - reflexivity.
  - vm_compute (10 ^ _). lia.
  - pose proof (Z.log2_le_mono 100000 id) as Hlog.
    change (Z.log2 100000) with 16 in Hlog. lia.
Qed.

Lemma generateId_six_digits_witness :
  exists id,
    generateIdNumber (Finite (123183457807755 * 2 ^ 1022)) = Num id /\
    100000 <= id <= 999999 /\
    String.length (generateId (Finite (123183457807755 * 2 ^ 1022))) = 6%nat.
Proof.
  apply (generateId_six_digits (Finite (123183457807755 * 2 ^ 1022)));
    by vm_compute.
Defined.

Example generateId_value :
  generateId (Finite (123183457807755 * 2 ^ 1022)) = "124617".
Proof. by vm_compute. Qed.

(** ** Stale handlers *)

Lemma step_noFileBeforeDial s e :
  isPeerConnection e = false ->
  noFileBeforeDial s -> noFileBeforeDial (step s e).
Proof.
  unfold noFileBeforeDial, step, syncIncomingMetaRef. intros He Hs.
  change (dialed (withIncomingMetaRef ?m ?t)) with (dialed t).
  change (selectedFile (withIncomingMetaRef ?m ?t)) with (selectedFile t).
  change (status (withIncomingMetaRef ?m ?t)) with (status t).
  change (timeouts (withIncomingMetaRef ?m ?t)) with (timeouts t).
  change (accepted (withIncomingMetaRef ?m ?t)) with (accepted t).
  change (uploads (withIncomingMetaRef ?m ?t)) with (uploads t).
  destruct (dialed s) as [|cl0 dialed0] eqn:Hd.
  - destruct Hs as (Hf & Hst & Ht & Ha & Hu).
    assert (forall t,
              (dialed t = [] /\ selectedFile t = None /\
               (status t = IDLE \/ status t = FAILED) /\
               timeouts t = [] /\ accepted t = [] /\ uploads t = []) \/
              dialed t = [mkClosure (status s) None] ->
              match dialed t with
              | [] => selectedFile t = None /\
                      (status t = IDLE \/ status t = FAILED) /\
                      timeouts t = [] /\ accepted t = [] /\ uploads t = []
              | cl :: _ => cl_selectedFile cl = None
              end) as Hrest.
    { intros t [(-> & H)| ->]; done. }
    apply Hrest.
    destruct e; try discriminate He; simpl handle;
      unfold guarded, connectButton, sendButton, forceStartButton,
        clearFileButton, filePanel, requestModal, retryButton, resetButton,
        connectPanel, status_in, uploadResumes, handlersOf;
      rewrite ?Hd, ?Hf, ?Ht, ?Ha, ?Hu;
      destruct Hst as [Hst|Hst]; rewrite ?Hst; simpl;
      rewrite ?andb_false_r; simpl;
      unfold enterApp, goHome, connectToPeer, reset, peerOnOpen,
        peerOnError, heartbeatFires;
      repeat case_match; simplify_eq;
      try (left; simpl; rewrite ?Hd, ?Hf, ?Ht, ?Ha, ?Hu, ?Hst; by auto 10);
      try (right; simpl; by rewrite ?Hd, ?Hf, ?Hst).
  - assert (forall t, dialed t = dialed s \/
                      (exists cl, dialed t = dialed s ++ [cl]) ->
              match dialed t with
              | [] => selectedFile t = None /\
                      (status t = IDLE \/ status t = FAILED) /\
                      timeouts t = [] /\ accepted t = [] /\ uploads t = []
              | cl :: _ => cl_selectedFile cl = None
              end) as Hgrow.
    { intros t [Ht|[cl Ht]]; rewrite Ht, Hd; done. }
    apply Hgrow.
    destruct e; simpl handle; unfold guarded;
      try (left; by rewrite uploadResumes_dialed);
      unfold enterApp, goHome, connectToPeer, processFile, requestSend,
        senderOnData, startChunkedUpload, acceptTransfer, rejectTransfer,
        reset, peerOnOpen, peerOnError, handleIncomingConnection,
        senderOnOpen, receiverOnData, senderOnClose, receiverOnClose,
        senderOnError, receiverOnError, heartbeatFires, timeoutFires,
        handlersOf;
      repeat case_match; simplify_eq; simpl; by eauto.
Qed.

Lemma run_noFileBeforeDial events : forall s,
  Forall (fun e => isPeerConnection e = false) events ->
  noFileBeforeDial s -> noFileBeforeDial (run events s).
Proof.
  induction events as [|e events IH]; intros s He Hs; [done|].
  inversion He; subst. apply IH; [done|]. by apply step_noFileBeforeDial.
Qed.

Lemma run_synced events :
  incomingMetaRef (run events initialApp) = incomingMeta (run events initialApp).
Proof.
  destruct events as [|e events _] using rev_ind; [done|].
  unfold run. by rewrite fold_left_app.
Qed.

(** X18.  In a session that has taken no incoming connection, [approve]
    on the first connection dialled starts no upload and sends nothing:
    the data handler was attached by the render that dialled, and the
    [startChunkedUpload] it calls sees the file selected then, which is
    none, since a file can only be selected once connected. *)
Theorem first_dial_approve_starts_nothing events :
  Forall (fun e => isPeerConnection e = false) events ->
  let s := run events initialApp in
  step s (ConnData (outgoing 0) approve) = s.
Proof.
  intros He s. rewrite <- (syncIncomingMetaRef_id s) at 2
    by apply run_synced.
  assert (noFileBeforeDial s) as Hs.
  { apply run_noFileBeforeDial; [done|]. unfold noFileBeforeDial. simpl.
    auto. }
  unfold step. f_equal. simpl handle. unfold handlersOf.
  unfold noFileBeforeDial in Hs.
  destruct (dialed s) as [|cl rest]; [done|]. simpl.
  unfold senderOnData. rewrite Hs. unfold startChunkedUpload.
  by destruct (connRef s).
Qed.

Lemma first_dial_approve_starts_nothing_witness :
  step (run offerScript initialApp) (ConnData (outgoing 0) approve)
  = run offerScript initialApp.
Proof.
  apply (first_dial_approve_starts_nothing offerScript).
  repeat constructor.
Defined.

(** X19.  The receiver's close handler drops the connection reference
    whatever connection it holds.  After the close of any accepted
    connection, an offer that arrives on another one still shows the
    request, but neither Accept nor Decline does anything: both return at
    their first test. *)
Theorem offer_after_close_cannot_be_answered s n m meta open :
  n ∈ accepted s -> m ∈ accepted s ->
  on_tab s receive_tab = true ->
  let s1 := step s (ConnClose (incoming n)) in
  let s2 := step s1 (ConnData (incoming m) (file_meta meta)) in
  connRef s1 = None /\
  requestModal s2 = true /\
  step s2 (ClickAccept open) = s2 /\
  step s2 ClickDecline = s2.
Proof.
  intros Hn Hm Htab. cbn zeta.
  assert (step s (ConnClose (incoming n))
          = syncIncomingMetaRef (receiverOnClose s)) as ->.
  { unfold step. simpl handle. unfold handlersOf.
    by rewrite (bool_decide_eq_true_2 _ Hn). }
  assert (step (syncIncomingMetaRef (receiverOnClose s))
            (ConnData (incoming m) (file_meta meta))
          = syncIncomingMetaRef
              (withStatus WAITING_APPROVAL
                 (withIncomingMeta (Some meta)
                    (syncIncomingMetaRef (receiverOnClose s))))) as ->.
  { unfold step. simpl handle. unfold handlersOf.
    change (accepted (syncIncomingMetaRef (receiverOnClose s)))
      with (accepted s).
    by rewrite (bool_decide_eq_true_2 _ Hm). }
  clear Hn Hm. destruct s as [v ? ? ? tab]. unfold on_tab, in_app in Htab.
  simpl in Htab. destruct v, tab; try discriminate Htab.
  repeat split; reflexivity.
Qed.

Lemma offer_after_close_cannot_be_answered_witness :
  requestModal
    (step (step (run takeoverScript initialApp) (ConnClose (incoming 0)))
       (ConnData (incoming 1) (file_meta (mkMeta "abc.txt" 3 "text/plain"))))
  = true.
Proof.
  apply (offer_after_close_cannot_be_answered
           (run takeoverScript initialApp) 0%nat 1%nat
           (mkMeta "abc.txt" 3 "text/plain") true);
    [apply (bool_decide_unpack _); by vm_compute ..| reflexivity].
Defined.
